(** * MemMgr: the first-fit allocator of [src/allocator.hpp]

    A shallow embedding of [class Allocator] (constructor, [free], [alloc])
    and of the [sbrk] primitive it is built on, followed by the properties
    of the arena that the specification states.

    Addresses are integers.  Memory is kept at the grain of control
    blocks: a map from the address of a control block to its two fields.
    Two things of the process are therefore not in the model.

    - The byte layout of a control block.  Two control blocks closer to
      each other than [sizeof(mcb_st)] share bytes in the process, and a
      store into one changes the other; the map keeps them apart.  The
      arena invariant [partitioned] rules such blocks out, and they arise
      only when a total size has wrapped around 2^32.
    - Whether an address is mapped.  A store always goes through in the
      model.  In the process the store of a new control block at
      [last_addr_] goes through when [sbrk] has just moved the break past
      it; when [sbrk] failed, or the total size is shorter than a control
      block, the bytes lie at or past the break and the store may kill
      the process instead.

    The header compiles in two ways, with and without [NDEBUG], and the
    [assert] at the head of [alloc] makes the two differ in more than the
    check: the functions take the build as a parameter. *)

From Stdlib Require Import ZArith Lia List Bool.
From stdpp Require Import base option list gmap fin_maps.

Local Open Scope Z_scope.

(** ** Data model *)

(** [struct mcb_st { bool free; uint32_t size; }]: the memory control block
    in front of every payload.  [mcb_size] is a 32-bit unsigned value and
    counts the header itself. *)
Record mcb_st := MCB { mcb_free : bool; mcb_size : Z }.

(** The process image the allocator works in.  [mem] maps the address of
    every control block that has been written to its contents (payload
    bytes are not represented); [brk] is the program break and [brk_max]
    the address it cannot pass; [mem_start_] and [last_addr_] are the two
    data members of [Allocator]. *)
Record state := State {
  mem : gmap Z mcb_st;
  brk : Z;
  brk_max : Z;
  mem_start_ : Z;
  last_addr_ : Z
}.

Definition set_mem (m : gmap Z mcb_st) (s : state) : state :=
  State m (brk s) (brk_max s) (mem_start_ s) (last_addr_ s).

Definition set_brk (b : Z) (s : state) : state :=
  State (mem s) b (brk_max s) (mem_start_ s) (last_addr_ s).

Definition set_last_addr (a : Z) (s : state) : state :=
  State (mem s) (brk s) (brk_max s) (mem_start_ s) a.

(** What a call can come to: it returns, the [assert] aborts the process,
    it dereferences an address at which no control block lives (undefined
    behaviour in C++), or its loop is still running when the fuel is
    spent. *)
Inductive outcome (A : Type) : Type :=
| Ret (a : A)
| Abort
| Fault
| Timeout.
Arguments Ret {A} a.
Arguments Abort {A}.
Arguments Fault {A}.
Arguments Timeout {A}.

(** Sequencing of calls: the second runs on what the first returned. *)
Definition bind {A B : Type} (o : outcome A) (k : A -> outcome B) : outcome B :=
  match o with
  | Ret a => k a
  | Abort => Abort
  | Fault => Fault
  | Timeout => Timeout
  end.

Definition UINT32_MOD : Z := 2 ^ 32.

(** [(void * ) -1], the value [sbrk] returns when it cannot move the break. *)
Definition SBRK_FAILED : Z := -1.

(** Modelled from the spec: the heap-growth primitive, [sbrk] of
    <unistd.h>, which the repository calls and does not define.  Given a
    byte increment it extends the region by that amount and returns the
    address that was the break before the extension, or returns the
    failure value [(void * ) -1] and moves nothing when the extension is
    impossible, which here means that the new break would pass
    [brk_max]. *)
Definition sbrk (increment : Z) (s : state) : Z * state :=
  if brk s + increment <=? brk_max s
  then (brk s, set_brk (brk s + increment) s)
  else (SBRK_FAILED, s).

(** [mcb->free = b] through a pointer [a] to a control block.  The store
    reaches that one control block only, which is what the process does
    as long as no other control block shares its bytes. *)
Definition store_free (a : Z) (b : bool) (m : gmap Z mcb_st) : gmap Z mcb_st :=
  alter (fun mcb => MCB b (mcb_size mcb)) a m.

(** [assert(size =! 0)].  The argument lexes as [size = !0]: with assertions
    compiled in, the macro evaluates it, which stores [1] in [size], and
    aborts when the stored value is zero; with [NDEBUG] defined the macro
    expands to nothing and [size] keeps the caller's value.  The result is
    the value of [size] after the statement, [None] for an abort. *)
Definition assert_size (ndebug : bool) (size : Z) : option Z :=
  if ndebug then Some size
  else
    let size := 1 in
    if size =? 0 then None else Some size.

(** The constructor: [last_addr_ = sbrk(0); mem_start_ = last_addr_;].
    No control block exists yet. *)
Definition Allocator (brk0 limit : Z) : state :=
  let s := State ∅ brk0 limit 0 0 in
  let '(p, s) := sbrk 0 s in
  let s := set_last_addr p s in
  State (mem s) (brk s) (brk_max s) (last_addr_ s) (last_addr_ s).

Section Allocator.

(** [sizeof(mcb_st)], fixed by the ABI (8 where [uint32_t] is 4-aligned). *)
Variable hsz : Z.

(** [Allocator::free].  The store [block_mcb->free = true] goes through
    whatever [block - sizeof(mcb_st)] is; where no control block lives
    there the call is a [Fault]. *)
Definition free (block : Z) (s : state) : outcome state :=
  let block_mcb := block - hsz in
  match mem s !! block_mcb with
  | None => Fault
  | Some _ => Ret (set_mem (store_free block_mcb true (mem s)) s)
  end.

(** The [while (curr != last_addr_)] loop of [alloc], up to the point where
    it either finds a block ([Ret (Some curr)]) or leaves the loop
    ([Ret None]).  [size] is the total size looked for. *)
Fixpoint scan (fuel : nat) (m : gmap Z mcb_st) (last curr size : Z)
  : outcome (option Z) :=
  if curr =? last then Ret None
  else
    match fuel with
    | O => Timeout
    | S fuel' =>
        match m !! curr with
        | None => Fault
        | Some mcb =>
            if mcb_free mcb && (size <=? mcb_size mcb)
            then Ret (Some curr)
            else scan fuel' m last (curr + mcb_size mcb) size
        end
    end.

(** [Allocator::alloc].  [ndebug] tells whether the translation unit is
    compiled with [NDEBUG]; [size] is the caller's [uint32_t] argument.
    [size += sizeof(mcb_st)] is 32-bit arithmetic.  What [sbrk] returns is
    dropped: the new block goes at [last_addr_] whether or not the break
    moved.  The store of its control block is taken to go through; in the
    process it does when the break has moved past it, that is when [sbrk]
    succeeded with a total of at least [sizeof(mcb_st)] on an arena that
    ended at the break. *)
Definition alloc (ndebug : bool) (fuel : nat) (size : Z) (s : state)
  : outcome (Z * state) :=
  match assert_size ndebug size with
  | None => Abort
  | Some size =>
      let curr := mem_start_ s in
      let size := (size + hsz) mod UINT32_MOD in
      match scan fuel (mem s) (last_addr_ s) curr size with
      | Ret (Some curr) =>
          let s := set_mem (store_free curr false (mem s)) s in
          Ret (curr + hsz, s)
      | Ret None =>
          let '(_, s) := sbrk size s in
          let ret := last_addr_ s in
          let s := set_last_addr (last_addr_ s + size) s in
          let s := set_mem (<[ret := MCB false size]> (mem s)) s in
          Ret (ret + hsz, s)
      | Abort => Abort
      | Fault => Fault
      | Timeout => Timeout
      end
  end.

End Allocator.

(** ** The arena as a sequence of blocks *)

(** [chain m a bs e]: reading control blocks from address [a] and hopping
    by each recorded size meets exactly the blocks [bs] and ends on [e]. *)
Fixpoint chain (m : gmap Z mcb_st) (a : Z) (bs : list mcb_st) (e : Z) : Prop :=
  match bs with
  | [] => a = e
  | b :: bs' => m !! a = Some b /\ chain m (a + mcb_size b) bs' e
  end.

Fixpoint total_size (bs : list mcb_st) : Z :=
  match bs with
  | [] => 0
  | b :: bs' => mcb_size b + total_size bs'
  end.

(** The addresses of the blocks [bs] laid out from [a]. *)
Fixpoint block_addrs (a : Z) (bs : list mcb_st) : list Z :=
  match bs with
  | [] => []
  | b :: bs' => a :: block_addrs (a + mcb_size b) bs'
  end.

(** A block qualifies for a request of total size [size]. *)
Definition fits (size : Z) (b : mcb_st) : bool :=
  mcb_free b && (size <=? mcb_size b).

(** First fit as the specification words it: the address of the earliest
    block, in address order from [a], that is free and large enough. *)
Fixpoint first_fit (a : Z) (bs : list mcb_st) (size : Z) : option Z :=
  match bs with
  | [] => None
  | b :: bs' =>
      if fits size b then Some a else first_fit (a + mcb_size b) bs' size
  end.

Section Arena.

Variable hsz : Z.

(** The value of [size] in [alloc] once [assert(size =! 0)] and
    [size += sizeof(mcb_st)] have run on the request [n]. *)
Definition request_size (ndebug : bool) (n : Z) : Z :=
  ((if ndebug then n else 1) + hsz) mod UINT32_MOD.

(** The state [alloc] leaves when its loop finds nothing and the total
    size is [size]. *)
Definition grown (size : Z) (s : state) : state :=
  State (<[last_addr_ s := MCB false size]> (mem s))
        (brk (snd (sbrk size s))) (brk_max s)
        (mem_start_ s) (last_addr_ s + size).

(** A block holds at least its own header and its size is a [uint32_t]. *)
Definition block_ok (b : mcb_st) : Prop := hsz <= mcb_size b < UINT32_MOD.

(** The partition invariant: [[mem_start_, last_addr_)] is cut into the
    blocks [bs], one after the other. *)
Definition partitioned (s : state) (bs : list mcb_st) : Prop :=
  chain (mem s) (mem_start_ s) bs (last_addr_ s) /\ Forall block_ok bs.

(** Every pointer handed out is the payload pointer of a block. *)
Definition returned_ok (s : state) (bs : list mcb_st) (ps : list Z) : Prop :=
  forall p, In p ps -> In (p - hsz) (block_addrs (mem_start_ s) bs).

(** A client's call. *)
Inductive call : Type :=
| CallAlloc (fuel : nat) (size : Z)
| CallFree (block : Z).

(** One call of the client on an arena; the list holds the pointers that
    [alloc] has returned so far, most recent first.  [size] is any
    [uint32_t].  [free] is only called on a returned pointer. *)
Inductive step (ndebug : bool) : call -> state * list Z -> state * list Z -> Prop :=
| step_alloc fuel size s ps p s' :
    0 <= size < UINT32_MOD ->
    alloc hsz ndebug fuel size s = Ret (p, s') ->
    step ndebug (CallAlloc fuel size) (s, ps) (s', p :: ps)
| step_free block s ps s' :
    In block ps ->
    free hsz block s = Ret s' ->
    step ndebug (CallFree block) (s, ps) (s', ps).

(** The states a client can bring a newly constructed allocator to. *)
Inductive reaches (ndebug : bool) : state -> list Z -> Prop :=
| reaches_new brk0 limit : reaches ndebug (Allocator brk0 limit) []
| reaches_step c s ps s' ps' :
    reaches ndebug s ps ->
    step ndebug c (s, ps) (s', ps') ->
    reaches ndebug s' ps'.

(** A call whose total size does not leave the 32-bit range.  With
    assertions compiled in every call is one, the total being a header
    and one byte; with [NDEBUG] the request plus the header must stay
    below 2^32. *)
Definition in_range (ndebug : bool) (c : call) : Prop :=
  match c with
  | CallAlloc _ size => ndebug = true -> size + hsz < UINT32_MOD
  | CallFree _ => True
  end.

(** The states reached by such calls only. *)
Inductive reaches_in_range (ndebug : bool) : state -> list Z -> Prop :=
| in_range_new brk0 limit : reaches_in_range ndebug (Allocator brk0 limit) []
| in_range_step c s ps s' ps' :
    reaches_in_range ndebug s ps ->
    in_range ndebug c ->
    step ndebug c (s, ps) (s', ps') ->
    reaches_in_range ndebug s' ps'.

(** A run of [alloc] calls, one per requested size, with no [free] in
    between; the pointers come back in call order. *)
Fixpoint allocs (ndebug : bool) (fuel : nat) (sizes : list Z) (s : state)
  : outcome (list Z * state) :=
  match sizes with
  | [] => Ret ([], s)
  | n :: sizes' =>
      bind (alloc hsz ndebug fuel n s) (fun '(p, s') =>
      bind (allocs ndebug fuel sizes' s') (fun '(ps, s'') =>
      Ret (p :: ps, s'')))
  end.


End Arena.

(** Two payload spans [[p, p + n)] and [[q, q + k)] share no byte. *)
Definition disjoint_spans (p n q k : Z) : Prop := p + n <= q \/ q + k <= p.

(** ** Chains of blocks *)

Lemma total_size_app bs1 bs2 :
  total_size (bs1 ++ bs2) = total_size bs1 + total_size bs2.
Proof. induction bs1 as [|b bs1 IH]; simpl; lia. Qed.

Lemma total_size_pos bs :
  Forall (fun b => 0 < mcb_size b) bs -> 0 <= total_size bs.
Proof. induction 1; simpl; lia. Qed.

Lemma chain_end m a bs e : chain m a bs e -> e = a + total_size bs.
Proof.
  revert a. induction bs as [|b bs IH]; simpl; intros a.
  - lia.
  - intros [_ Hc]. apply IH in Hc. lia.
Qed.

Lemma chain_app m a bs1 bs2 e :
  chain m a (bs1 ++ bs2) e <->
  chain m a bs1 (a + total_size bs1) /\ chain m (a + total_size bs1) bs2 e.
Proof.
  revert a. induction bs1 as [|b bs1 IH]; simpl; intros a.
  - replace (a + 0) with a by lia. tauto.
  - rewrite IH. replace (a + mcb_size b + total_size bs1)
      with (a + (mcb_size b + total_size bs1)) by lia. tauto.
Qed.

(** A chain only depends on the memory between its two ends. *)
Lemma chain_ext m m' a bs e :
  Forall (fun b => 0 < mcb_size b) bs ->
  (forall x, a <= x < e -> m' !! x = m !! x) ->
  chain m a bs e -> chain m' a bs e.
Proof.
  intros Hpos. revert a. induction Hpos as [|b bs Hb Hbs IH]; simpl; intros a Hext.
  - auto.
  - intros [Ha Hc]. pose proof (chain_end _ _ _ _ Hc) as He.
    pose proof (total_size_pos _ Hbs) as Ht. split.
    + rewrite Hext by lia. exact Ha.
    + apply IH; [|exact Hc]. intros x Hx. apply Hext. lia.
Qed.

Lemma block_addrs_app a bs1 bs2 :
  block_addrs a (bs1 ++ bs2)
  = block_addrs a bs1 ++ block_addrs (a + total_size bs1) bs2.
Proof.
  revert a. induction bs1 as [|b bs1 IH]; simpl; intros a.
  - f_equal. lia.
  - rewrite IH. do 3 f_equal. lia.
Qed.

Lemma In_block_addrs_split a bs x :
  In x (block_addrs a bs) ->
  exists pre b post, bs = pre ++ b :: post /\ x = a + total_size pre.
Proof.
  revert a. induction bs as [|b bs IH]; simpl; intros a.
  - tauto.
  - intros [<-|Hin].
    + exists [], b, bs. simpl. split; [reflexivity|lia].
    + destruct (IH _ Hin) as (pre & b' & post & -> & ->).
      exists (b :: pre), b', post. simpl. split; [reflexivity|lia].
Qed.

Lemma block_addrs_sizes a bs bs' :
  map mcb_size bs = map mcb_size bs' -> block_addrs a bs = block_addrs a bs'.
Proof.
  revert a bs'. induction bs as [|b bs IH]; intros a [|b' bs']; simpl;
    try discriminate; [reflexivity|].
  intros [= Hb Hbs]. rewrite Hb. f_equal. apply IH, Hbs.
Qed.

(** Storing the free flag of one block of a chain changes that block's
    flag and nothing else of the chain. *)
Lemma chain_store_free m a pre b post e f :
  Forall (fun b => 0 < mcb_size b) (pre ++ b :: post) ->
  chain m a (pre ++ b :: post) e ->
  chain (store_free (a + total_size pre) f m) a
        (pre ++ MCB f (mcb_size b) :: post) e.
Proof.
  intros Hpos Hc. apply chain_app in Hc as [Hpre Hpost].
  apply Forall_app in Hpos as [Hp1 Hp2].
  apply chain_app. split.
  - apply chain_ext with (m := m); [exact Hp1| |exact Hpre].
    intros x Hx. unfold store_free. apply lookup_alter_ne. lia.
  - simpl in *. destruct Hpost as [Hb Hpost]. split.
    + unfold store_free. rewrite lookup_alter_eq, Hb. reflexivity.
    + inversion Hp2 as [|? ? Hb0 Hp3]; subst.
      apply chain_ext with (m := m); [exact Hp3| |exact Hpost].
      intros x Hx. unfold store_free. apply lookup_alter_ne. lia.
Qed.

(** Writing a control block at the far end appends it to the chain. *)
Lemma chain_snoc m a bs e b :
  Forall (fun b => 0 < mcb_size b) bs ->
  chain m a bs e ->
  chain (<[e := b]> m) a (bs ++ [b]) (e + mcb_size b).
Proof.
  intros Hpos Hc. pose proof (chain_end _ _ _ _ Hc) as He.
  apply chain_app. rewrite <- He. split.
  - apply chain_ext with (m := m); [exact Hpos| |exact Hc].
    intros x Hx. apply lookup_insert_ne. lia.
  - simpl. split; [apply lookup_insert_eq|reflexivity].
Qed.

Lemma store_free_twice a f m :
  store_free a f (store_free a f m) = store_free a f m.
Proof.
  apply map_eq. intros x. unfold store_free.
  destruct (decide (a = x)) as [->|Hne].
  - rewrite !lookup_alter_eq. destruct (m !! x); reflexivity.
  - rewrite !lookup_alter_ne by exact Hne. reflexivity.
Qed.

(** ** The scan loop *)

Lemma fits_true size b :
  fits size b = true <-> mcb_free b = true /\ size <= mcb_size b.
Proof. unfold fits. rewrite andb_true_iff, Z.leb_le. tauto. Qed.

Lemma fits_false size b :
  fits size b = false <-> mcb_free b = false \/ mcb_size b < size.
Proof. unfold fits. rewrite andb_false_iff, Z.leb_gt. tauto. Qed.

(** On a chain of blocks of positive size the loop computes the first fit
    within as many iterations as there are blocks. *)
Lemma scan_first_fit m a bs e size fuel :
  Forall (fun b => 0 < mcb_size b) bs ->
  chain m a bs e ->
  (length bs <= fuel)%nat ->
  scan fuel m e a size = Ret (first_fit a bs size).
Proof.
  intros Hpos. revert a fuel.
  induction Hpos as [|b bs Hb Hbs IH]; intros a fuel Hc Hfuel; simpl in Hc.
  - subst e. destruct fuel; simpl; rewrite Z.eqb_refl; reflexivity.
  - destruct Hc as [Ha Hc]. pose proof (chain_end _ _ _ _ Hc) as He.
    pose proof (total_size_pos _ Hbs) as Ht.
    destruct fuel as [|fuel]; [simpl in Hfuel; lia|].
    simpl. destruct (Z.eqb_spec a e) as [Heq|_]; [lia|].
    rewrite Ha. unfold fits.
    destruct (mcb_free b && (size <=? mcb_size b)); [reflexivity|].
    apply IH; [exact Hc|]. simpl in Hfuel. lia.
Qed.

(** If the loop comes back at all, it comes back with the first fit. *)
Lemma scan_Ret_first_fit m a bs e size fuel r :
  Forall (fun b => 0 < mcb_size b) bs ->
  chain m a bs e ->
  scan fuel m e a size = Ret r -> r = first_fit a bs size.
Proof.
  intros Hpos. revert a fuel.
  induction Hpos as [|b bs Hb Hbs IH]; intros a fuel Hc Hscan; simpl in Hc.
  - subst e. destruct fuel; simpl in *; rewrite Z.eqb_refl in Hscan;
      congruence.
  - destruct Hc as [Ha Hc]. pose proof (chain_end _ _ _ _ Hc) as He.
    pose proof (total_size_pos _ Hbs) as Ht.
    destruct fuel as [|fuel]; simpl in Hscan;
      destruct (Z.eqb_spec a e) as [Heq|_]; try lia; try discriminate.
    rewrite Ha in Hscan. simpl. unfold fits.
    destruct (mcb_free b && (size <=? mcb_size b)).
    + congruence.
    + eapply IH; eauto.
Qed.


Lemma first_fit_Some a bs size x :
  first_fit a bs size = Some x <->
  exists pre b post,
    bs = pre ++ b :: post /\ x = a + total_size pre /\
    fits size b = true /\ Forall (fun b' => fits size b' = false) pre.
Proof.
  revert a. induction bs as [|b bs IH]; simpl; intros a.
  - split; [discriminate|]. intros (pre & b & post & Hbs & _).
    destruct pre; discriminate.
  - destruct (fits size b) eqn:Hfit.
    + split.
      * intros [= <-]. exists [], b, bs. simpl.
        repeat split; [lia|exact Hfit|constructor].
      * intros (pre & b' & post & Hbs & -> & Hb' & Hpre).
        destruct pre as [|b0 pre]; simpl in *.
        -- f_equal. lia.
        -- injection Hbs as <- _. inversion Hpre; congruence.
    + rewrite IH. split.
      * intros (pre & b' & post & -> & -> & Hb' & Hpre).
        exists (b :: pre), b', post. simpl.
        repeat split; [lia|exact Hb'|constructor; assumption].
      * intros (pre & b' & post & Hbs & -> & Hb' & Hpre).
        destruct pre as [|b0 pre]; simpl in *.
        -- injection Hbs as <- _. congruence.
        -- injection Hbs as <- ->. inversion Hpre; subst.
           exists pre, b', post. repeat split; [lia|exact Hb'|assumption].
Qed.

Lemma first_fit_None a bs size :
  first_fit a bs size = None <-> Forall (fun b => fits size b = false) bs.
Proof.
  revert a. induction bs as [|b bs IH]; simpl; intros a.
  - split; [constructor|reflexivity].
  - destruct (fits size b) eqn:Hfit.
    + split; [discriminate|]. inversion 1; congruence.
    + rewrite IH. split; [constructor; assumption|inversion 1; assumption].
Qed.

Lemma first_fit_in a bs size x :
  first_fit a bs size = Some x -> In x (block_addrs a bs).
Proof.
  intros (pre & b & post & -> & -> & _)%first_fit_Some.
  rewrite block_addrs_app. apply in_or_app. right. left. reflexivity.
Qed.

(** ** The two paths of [alloc] *)

Lemma assert_size_eq nd n : assert_size nd n = Some (if nd then n else 1).
Proof. destruct nd; reflexivity. Qed.

Section Properties.

Variable hsz : Z.

(** The header has a size, and a header followed by one byte still has a
    32-bit size. *)
Hypothesis hsz_range : 0 < hsz < UINT32_MOD - 1.

Lemma alloc_found nd fuel n s a :
  scan fuel (mem s) (last_addr_ s) (mem_start_ s) (request_size hsz nd n)
    = Ret (Some a) ->
  alloc hsz nd fuel n s = Ret (a + hsz, set_mem (store_free a false (mem s)) s).
Proof.
  intros Hscan. unfold alloc. rewrite assert_size_eq.
  unfold request_size in Hscan. rewrite Hscan. reflexivity.
Qed.

Lemma alloc_grow nd fuel n s :
  scan fuel (mem s) (last_addr_ s) (mem_start_ s) (request_size hsz nd n)
    = Ret None ->
  alloc hsz nd fuel n s
    = Ret (last_addr_ s + hsz, grown (request_size hsz nd n) s).
Proof.
  intros Hscan. unfold alloc. rewrite assert_size_eq.
  unfold request_size in *. rewrite Hscan. unfold grown, sbrk.
  destruct (_ <=? _); reflexivity.
Qed.

Lemma alloc_Ret_inv nd fuel n s p s' :
  alloc hsz nd fuel n s = Ret (p, s') ->
  (exists a,
      scan fuel (mem s) (last_addr_ s) (mem_start_ s) (request_size hsz nd n)
        = Ret (Some a) /\
      p = a + hsz /\ s' = set_mem (store_free a false (mem s)) s) \/
  (scan fuel (mem s) (last_addr_ s) (mem_start_ s) (request_size hsz nd n)
     = Ret None /\
   p = last_addr_ s + hsz /\ s' = grown (request_size hsz nd n) s).
Proof.
  intros Halloc.
  destruct (scan fuel (mem s) (last_addr_ s) (mem_start_ s)
              (request_size hsz nd n)) as [[a|]| | |] eqn:Hscan.
  - rewrite (alloc_found _ _ _ _ _ Hscan) in Halloc.
    injection Halloc as <- <-. left. eauto.
  - rewrite (alloc_grow _ _ _ _ Hscan) in Halloc.
    injection Halloc as <- <-. right. auto.
  - unfold alloc in Halloc. rewrite assert_size_eq in Halloc.
    unfold request_size in Hscan. rewrite Hscan in Halloc. discriminate.
  - unfold alloc in Halloc. rewrite assert_size_eq in Halloc.
    unfold request_size in Hscan. rewrite Hscan in Halloc. discriminate.
  - unfold alloc in Halloc. rewrite assert_size_eq in Halloc.
    unfold request_size in Hscan. rewrite Hscan in Halloc. discriminate.
Qed.


Lemma request_size_debug n : request_size hsz false n = 1 + hsz.
Proof. unfold request_size, UINT32_MOD in *. apply Z.mod_small. lia. Qed.

Lemma request_size_ndebug n :
  0 <= n -> n + hsz < UINT32_MOD -> request_size hsz true n = n + hsz.
Proof. intros. unfold request_size. apply Z.mod_small. lia. Qed.

Lemma block_ok_pos b : block_ok hsz b -> 0 < mcb_size b.
Proof. unfold block_ok. lia. Qed.

Lemma blocks_ok_pos bs :
  Forall (block_ok hsz) bs -> Forall (fun b => 0 < mcb_size b) bs.
Proof.
  intros Hok. eapply Forall_impl; [exact Hok|]. intros b. apply block_ok_pos.
Qed.

(** The total size of a request that stays within 32 bits leaves room
    for the header. *)
Lemma step_request_ok nd n :
  0 <= n < UINT32_MOD -> (nd = true -> n + hsz < UINT32_MOD) ->
  hsz <= request_size hsz nd n < UINT32_MOD.
Proof.
  intros Hn Hnd. destruct nd.
  - rewrite request_size_ndebug by (try apply Hnd; auto; lia).
    specialize (Hnd eq_refl). lia.
  - rewrite request_size_debug. lia.
Qed.

(** ** The partition invariant *)

Lemma partitioned_new brk0 limit : partitioned hsz (Allocator brk0 limit) [].
Proof.
  split; [|constructor]. unfold Allocator, sbrk. simpl.
  destruct (_ <=? _); reflexivity.
Qed.


Lemma partitioned_lookup s pre b post :
  partitioned hsz s (pre ++ b :: post) ->
  mem s !! (mem_start_ s + total_size pre) = Some b.
Proof. intros [Hc _]. apply chain_app in Hc as [_ [Hb _]]. exact Hb. Qed.

Lemma partitioned_block_ok s pre b post :
  partitioned hsz s (pre ++ b :: post) -> block_ok hsz b.
Proof.
  intros [_ Hok]. apply Forall_app in Hok as [_ Hok]. inversion Hok; assumption.
Qed.

Lemma partitioned_store_free s pre b post f :
  partitioned hsz s (pre ++ b :: post) ->
  partitioned hsz
    (set_mem (store_free (mem_start_ s + total_size pre) f (mem s)) s)
    (pre ++ MCB f (mcb_size b) :: post).
Proof.
  intros [Hc Hok]. split; simpl.
  - apply chain_store_free; [apply blocks_ok_pos, Hok|exact Hc].
  - apply Forall_app in Hok as [Hpre Hpost]. apply Forall_app. split; [exact Hpre|].
    inversion Hpost; subst. constructor; assumption.
Qed.

Lemma partitioned_grown s bs size :
  partitioned hsz s bs -> hsz <= size < UINT32_MOD ->
  partitioned hsz (grown size s) (bs ++ [MCB false size]).
Proof.
  intros [Hc Hok] Hsize. split; simpl.
  - apply (chain_snoc _ _ _ _ (MCB false size)); [apply blocks_ok_pos, Hok|exact Hc].
  - apply Forall_app. split; [exact Hok|]. constructor; [exact Hsize|constructor].
Qed.

Lemma step_partitioned nd c s ps s' ps' bs :
  partitioned hsz s bs -> returned_ok hsz s bs ps ->
  in_range hsz nd c ->
  step hsz nd c (s, ps) (s', ps') ->
  exists bs',
    partitioned hsz s' bs' /\ mem_start_ s' = mem_start_ s /\
    (map mcb_size bs' = map mcb_size bs \/
     exists fuel n,
       c = CallAlloc fuel n /\ bs' = bs ++ [MCB false (request_size hsz nd n)]) /\
    returned_ok hsz s' bs' ps'.
Proof.
  intros Hpart Hret Hrange Hstep. pose proof Hpart as [Hc Hok].
  pose proof (blocks_ok_pos _ Hok) as Hpos.
  inversion Hstep as [fuel n s0 ps0 p s1 Hn Halloc|block s0 ps0 s1 Hin Hfree];
    subst; simpl in Hrange.
  - apply alloc_Ret_inv in Halloc as [(a & Hscan & -> & ->)|(Hscan & -> & ->)].
    + apply (scan_Ret_first_fit _ _ bs) in Hscan; [|assumption..].
      symmetry in Hscan. pose proof Hscan as Hfit.
      apply first_fit_Some in Hscan as (pre & b & post & -> & -> & _ & _).
      exists (pre ++ MCB false (mcb_size b) :: post).
      assert (Hsz : map mcb_size (pre ++ b :: post)
                    = map mcb_size (pre ++ MCB false (mcb_size b) :: post))
        by (rewrite !map_app; reflexivity).
      split; [apply partitioned_store_free, Hpart|].
      split; [reflexivity|]. split; [left; symmetry; exact Hsz|].
      intros p [<-|Hp]; simpl; rewrite <- (block_addrs_sizes _ _ _ Hsz).
      * replace (mem_start_ s + total_size pre + hsz - hsz)
          with (mem_start_ s + total_size pre) by lia.
        eapply first_fit_in, Hfit.
      * apply Hret, Hp.
    + exists (bs ++ [MCB false (request_size hsz nd n)]).
      split; [apply partitioned_grown; [exact Hpart|apply step_request_ok; assumption]|].
      split; [reflexivity|]. split; [right; eauto|].
      intros p Hp. simpl. rewrite block_addrs_app. apply in_or_app.
      destruct Hp as [<-|Hp].
      * right. left. apply chain_end in Hc. lia.
      * left. apply Hret, Hp.
  - unfold free in Hfree.
    destruct (mem s !! (block - hsz)) as [b0|] eqn:Hb0; [|discriminate].
    injection Hfree as <-.
    destruct (In_block_addrs_split _ _ _ (Hret _ Hin)) as (pre & b & post & -> & Hx).
    rewrite Hx. exists (pre ++ MCB true (mcb_size b) :: post).
    assert (Hsz : map mcb_size (pre ++ b :: post)
                  = map mcb_size (pre ++ MCB true (mcb_size b) :: post))
      by (rewrite !map_app; reflexivity).
    split; [apply partitioned_store_free, Hpart|].
    split; [reflexivity|]. split; [left; symmetry; exact Hsz|].
    intros p Hp. simpl. rewrite <- (block_addrs_sizes _ _ _ Hsz). apply Hret, Hp.
Qed.

Lemma reaches_partitioned nd s ps :
  reaches_in_range hsz nd s ps ->
  exists bs, partitioned hsz s bs /\ returned_ok hsz s bs ps.
Proof.
  induction 1 as [brk0 limit|c s ps s' ps' Hreach (bs & Hpart & Hret) Hrange Hstep].
  - exists []. split; [apply partitioned_new|intros p []].
  - destruct (step_partitioned _ _ _ _ _ _ _ Hpart Hret Hrange Hstep)
      as (bs' & Hpart' & _ & _ & Hret'). eauto.
Qed.

Lemma reaches_in_range_reaches nd s ps :
  reaches_in_range hsz nd s ps -> reaches hsz nd s ps.
Proof.
  induction 1 as [brk0 limit|c s ps s' ps' _ IH _ Hstep].
  - apply reaches_new.
  - exact (reaches_step _ _ _ _ _ _ _ IH Hstep).
Qed.

Lemma in_range_debug c : in_range hsz false c.
Proof. destruct c; simpl; [discriminate|exact I]. Qed.

Lemma reaches_debug_in_range s ps :
  reaches hsz false s ps -> reaches_in_range hsz false s ps.
Proof.
  induction 1 as [brk0 limit|c s ps s' ps' _ IH Hstep].
  - apply in_range_new.
  - exact (in_range_step _ _ _ _ _ _ _ IH (in_range_debug c) Hstep).
Qed.

(** X19.  In every state that [alloc] and [free] calls (the latter on
    pointers [alloc] has returned) lead to from a newly constructed
    allocator, as long as no total size has left the 32-bit range,
    [[mem_start_, last_addr_)] is cut into a sequence of blocks laid end to
    end, each at least a header long, so that the block sizes added to
    [mem_start_] give [last_addr_]; and any further such call keeps
    [mem_start_] and the size of every existing block: the sizes of the
    old blocks are an initial segment of the sizes of the new ones. *)
Theorem partition_invariant nd s ps :
  reaches_in_range hsz nd s ps ->
  exists bs,
    partitioned hsz s bs /\
    last_addr_ s = mem_start_ s + total_size bs /\
    forall c s' ps',
      in_range hsz nd c ->
      step hsz nd c (s, ps) (s', ps') ->
      exists bs',
        partitioned hsz s' bs' /\ mem_start_ s' = mem_start_ s /\
        prefix (map mcb_size bs) (map mcb_size bs').
Proof.
  intros Hreach.
  destruct (reaches_partitioned _ _ _ Hreach) as (bs & Hpart & Hret).
  exists bs. split; [exact Hpart|]. split.
  - destruct Hpart as [Hc _]. exact (chain_end _ _ _ _ Hc).
  - intros c s' ps' Hrange Hstep.
    destruct (step_partitioned _ _ _ _ _ _ _ Hpart Hret Hrange Hstep)
      as (bs' & Hpart' & Hstart & Hsizes & _).
    exists bs'. split; [exact Hpart'|]. split; [exact Hstart|].
    destruct Hsizes as [->|(fuel & n & _ & ->)]; [reflexivity|].
    rewrite map_app. apply prefix_app_r. reflexivity.
Qed.

(** The blocks of an arena that only calls with assertions compiled in
    have made. *)
Lemma debug_blocks_sized s ps :
  reaches_in_range hsz false s ps ->
  exists bs,
    partitioned hsz s bs /\ returned_ok hsz s bs ps /\
    Forall (fun b => mcb_size b = 1 + hsz) bs.
Proof.
  induction 1 as [brk0 limit|c s ps s' ps' Hreach (bs & Hpart & Hret & Hsz) Hrange Hstep].
  - exists []. split; [apply partitioned_new|]. split; [intros p []|constructor].
  - destruct (step_partitioned _ _ _ _ _ _ _ Hpart Hret Hrange Hstep)
      as (bs' & Hpart' & _ & Hsizes & Hret').
    exists bs'. split; [exact Hpart'|]. split; [exact Hret'|].
    destruct Hsizes as [Heq|(fuel & n & _ & ->)].
    + clear -Heq Hsz. revert bs' Heq.
      induction Hsz as [|b bs Hb Hbs IH]; intros [|b' bs']; simpl; intros Heq;
        try discriminate; [constructor|].
      injection Heq as Hb' Hbs'. constructor; [lia|apply IH, Hbs'].
    + apply Forall_app. split; [exact Hsz|].
      constructor; [simpl; apply request_size_debug|constructor].
Qed.

(** X11.  With assertions compiled in, every block the allocator ever makes is
    a header and one byte long. *)
Lemma reaches_debug_sizes s ps :
  reaches hsz false s ps ->
  exists bs,
    partitioned hsz s bs /\ Forall (fun b => mcb_size b = 1 + hsz) bs.
Proof.
  intros Hreach.
  destruct (debug_blocks_sized _ _ (reaches_debug_in_range _ _ Hreach))
    as (bs & Hpart & _ & Hsz).
  exists bs. split; [exact Hpart|exact Hsz].
Qed.

(** A pointer that [alloc] returned is the payload pointer of a block of
    the partition. *)
Lemma reaches_returned nd s ps p :
  reaches_in_range hsz nd s ps -> In p ps ->
  exists pre b post,
    partitioned hsz s (pre ++ b :: post) /\
    p = mem_start_ s + total_size pre + hsz.
Proof.
  intros Hreach Hin.
  destruct (reaches_partitioned _ _ _ Hreach) as (bs & Hpart & Hret).
  destruct (In_block_addrs_split _ _ _ (Hret _ Hin)) as (pre & b & post & -> & Hx).
  exists pre, b, post. split; [exact Hpart|lia].
Qed.

(** ** [alloc] on a partitioned arena *)

(** The hit path, for either build: the earliest block that is free and
    at least [request_size] long is handed out. *)
Lemma alloc_first_fit nd s pre b post n fuel :
  partitioned hsz s (pre ++ b :: post) ->
  fits (request_size hsz nd n) b = true ->
  Forall (fun b' => fits (request_size hsz nd n) b' = false) pre ->
  (length (pre ++ b :: post) <= fuel)%nat ->
  alloc hsz nd fuel n s
  = Ret (mem_start_ s + total_size pre + hsz,
         set_mem (store_free (mem_start_ s + total_size pre) false (mem s)) s).
Proof.
  intros [Hc Hok] Hb Hpre Hfuel. apply alloc_found.
  rewrite (scan_first_fit _ _ _ _ _ _ (blocks_ok_pos _ Hok) Hc Hfuel).
  f_equal. apply first_fit_Some. exists pre, b, post. auto.
Qed.

(** The miss path, for either build. *)
Lemma alloc_append nd s bs n fuel :
  partitioned hsz s bs ->
  Forall (fun b => fits (request_size hsz nd n) b = false) bs ->
  (length bs <= fuel)%nat ->
  alloc hsz nd fuel n s
  = Ret (last_addr_ s + hsz, grown (request_size hsz nd n) s).
Proof.
  intros [Hc Hok] Hbs Hfuel. apply alloc_grow.
  rewrite (scan_first_fit _ _ _ _ _ _ (blocks_ok_pos _ Hok) Hc Hfuel).
  f_equal. apply first_fit_None, Hbs.
Qed.

(** X6.  On a partitioned arena that ends at the break, [alloc] returns
    whenever the total size it computes is at least a header and [sbrk]
    has room for it below the limit, given one unit of fuel per block; and
    the arena ends at the break again afterwards. *)
Lemma alloc_returns nd s bs n fuel :
  partitioned hsz s bs ->
  (length bs <= fuel)%nat ->
  hsz <= request_size hsz nd n ->
  last_addr_ s = brk s ->
  brk s + request_size hsz nd n <= brk_max s ->
  exists p s', alloc hsz nd fuel n s = Ret (p, s') /\ last_addr_ s' = brk s'.
Proof.
  intros [Hc Hok] Hfuel Hroom Hend Hmax.
  pose proof (scan_first_fit _ _ _ _ (request_size hsz nd n) _
                (blocks_ok_pos _ Hok) Hc Hfuel) as Hscan.
  destruct (first_fit (mem_start_ s) bs (request_size hsz nd n)) as [a|].
  - rewrite (alloc_found _ _ _ _ _ Hscan). eexists _, _.
    split; [reflexivity|exact Hend].
  - rewrite (alloc_grow _ _ _ _ Hscan). eexists _, _.
    split; [reflexivity|]. simpl. unfold sbrk.
    destruct (Z.leb_spec (brk s + request_size hsz nd n) (brk_max s)); simpl; lia.
Qed.

(** With assertions compiled in, the request plays no part in the call. *)
Lemma alloc_debug_any_request fuel n n' s :
  alloc hsz false fuel n s = alloc hsz false fuel n' s.
Proof. reflexivity. Qed.

(** X14.  With [NDEBUG], first fit on the caller's size: when some free
    block of a partitioned arena is at least the request plus a header
    long, the earliest such block is handed out, flag cleared, size and
    everything else as before. *)
Lemma alloc_first_fit_ndebug s pre b post n fuel :
  partitioned hsz s (pre ++ b :: post) ->
  0 < n ->
  mcb_free b = true -> n + hsz <= mcb_size b ->
  Forall (fun b' => mcb_free b' = false \/ mcb_size b' < n + hsz) pre ->
  (length (pre ++ b :: post) <= fuel)%nat ->
  exists s',
    alloc hsz true fuel n s = Ret (mem_start_ s + total_size pre + hsz, s') /\
    mem s' !! (mem_start_ s + total_size pre) = Some (MCB false (mcb_size b)) /\
    (forall x, x <> mem_start_ s + total_size pre -> mem s' !! x = mem s !! x) /\
    mem_start_ s' = mem_start_ s /\ last_addr_ s' = last_addr_ s /\
    partitioned hsz s' (pre ++ MCB false (mcb_size b) :: post).
Proof.
  intros Hpart Hn Hfree Hsize Hpre Hfuel.
  pose proof (partitioned_block_ok _ _ _ _ Hpart) as Hb.
  assert (Hreq : request_size hsz true n = n + hsz)
    by (apply request_size_ndebug; unfold block_ok in Hb; lia).
  eexists. split.
  - apply alloc_first_fit with (b := b) (post := post); rewrite ?Hreq;
      [exact Hpart| | |exact Hfuel].
    + apply fits_true. auto.
    + eapply Forall_impl; [exact Hpre|]. intros b'. apply fits_false.
  - pose proof (partitioned_lookup s pre b post Hpart) as Hlk.
    simpl. unfold store_free.
    split; [rewrite lookup_alter_eq, Hlk; reflexivity|].
    split; [intros x Hx; apply lookup_alter_ne; congruence|].
    split; [reflexivity|]. split; [reflexivity|].
    apply partitioned_store_free, Hpart.
Qed.



(** X15.  With [NDEBUG]: a freed block with no free block before it is handed
    out again to a request that fits it, and to no request that does not,
    for totals within 32 bits. *)
Lemma reuse_after_free_ndebug s pre b post y fuel :
  partitioned hsz s (pre ++ b :: post) ->
  Forall (fun b' => mcb_free b' = false) pre ->
  0 <= y ->
  (length (pre ++ b :: post) <= fuel)%nat ->
  exists s1,
    free hsz (mem_start_ s + total_size pre + hsz) s = Ret s1 /\
    (y + hsz <= mcb_size b ->
     exists s2, alloc hsz true fuel y s1
                = Ret (mem_start_ s + total_size pre + hsz, s2)) /\
    (mcb_size b < y + hsz < UINT32_MOD ->
     forall q s2, alloc hsz true fuel y s1 = Ret (q, s2) ->
                  q <> mem_start_ s + total_size pre + hsz).
Proof.
  intros Hpart Hpre Hy Hfuel.
  pose proof (partitioned_lookup s pre b post Hpart) as Hlk.
  pose proof (partitioned_store_free s pre b post true Hpart) as Hpart1.
  pose proof (partitioned_block_ok _ _ _ _ Hpart) as Hb.
  eexists. unfold free.
  replace (mem_start_ s + total_size pre + hsz - hsz)
    with (mem_start_ s + total_size pre) by lia.
  rewrite Hlk. split; [reflexivity|].
  set (s1 := set_mem _ s) in *. split.
  - intros Hfit. eexists.
    assert (Hreq : request_size hsz true y = y + hsz)
      by (apply request_size_ndebug; unfold block_ok in Hb; lia).
    change (mem_start_ s) with (mem_start_ s1).
    apply alloc_first_fit with (b := MCB true (mcb_size b)) (post := post);
      rewrite ?Hreq.
    + exact Hpart1.
    + apply fits_true. simpl. auto.
    + eapply Forall_impl; [exact Hpre|]. intros b' Hb'. apply fits_false. auto.
    + rewrite length_app in *. simpl in *. exact Hfuel.
  - intros Hbig q s2 Halloc.
    assert (Hreq : request_size hsz true y = y + hsz)
      by (apply request_size_ndebug; lia).
    destruct Hpart1 as [Hc1 Hok1].
    pose proof (blocks_ok_pos _ Hok1) as Hpos1.
    apply alloc_Ret_inv in Halloc as [(a & Hscan & -> & _)|(_ & -> & _)].
    + intros Heq. assert (a = mem_start_ s + total_size pre) as -> by lia.
      apply (scan_Ret_first_fit _ _ _ _ _ _ _ Hpos1 Hc1) in Hscan.
      symmetry in Hscan. rewrite Hreq in Hscan.
      apply first_fit_Some in Hscan as (pre' & b' & post' & Hsplit & Ha & Hfit & _).
      rewrite Hsplit in Hc1. apply chain_app in Hc1 as [_ [Hb' _]].
      change (mem_start_ s1) with (mem_start_ s) in *. rewrite <- Ha in Hb'.
      unfold s1, store_free in Hb'. simpl in Hb'.
      rewrite lookup_alter_eq, Hlk in Hb'. injection Hb' as <-.
      apply fits_true in Hfit. simpl in Hfit. lia.
    + apply chain_end in Hc1. simpl in Hc1. rewrite total_size_app in Hc1.
      simpl in Hc1.
      apply Forall_app in Hpos1 as [_ Hpos1].
      inversion Hpos1 as [|? ? Hb1 Hpost1]; subst.
      pose proof (total_size_pos _ Hpost1). simpl in Hb1.
      unfold s1. simpl. lia.
Qed.


(** ** [free] *)

(** X20.  [free] on the payload pointer of a block of the partition returns;
    afterwards the control block at [p - sizeof(mcb_st)] has its flag set
    and its size as before, every other control block is as before, and so
    are [mem_start_], [last_addr_] and the break; the partition is the
    same sequence of blocks with that one flag set. *)
Theorem free_frame s pre b post :
  partitioned hsz s (pre ++ b :: post) ->
  exists s',
    free hsz (mem_start_ s + total_size pre + hsz) s = Ret s' /\
    mem s' !! (mem_start_ s + total_size pre) = Some (MCB true (mcb_size b)) /\
    (forall x, x <> mem_start_ s + total_size pre -> mem s' !! x = mem s !! x) /\
    mem_start_ s' = mem_start_ s /\ last_addr_ s' = last_addr_ s /\
    brk s' = brk s /\ brk_max s' = brk_max s /\
    partitioned hsz s' (pre ++ MCB true (mcb_size b) :: post).
Proof.
  intros Hpart. pose proof (partitioned_lookup _ _ _ _ Hpart) as Hb.
  eexists. unfold free.
  replace (mem_start_ s + total_size pre + hsz - hsz)
    with (mem_start_ s + total_size pre) by lia.
  rewrite Hb. split; [reflexivity|]. simpl. unfold store_free.
  split; [rewrite lookup_alter_eq, Hb; reflexivity|].
  split; [intros x Hx; apply lookup_alter_ne; congruence|].
  repeat (split; [reflexivity|]).
  apply partitioned_store_free, Hpart.
Qed.

(** C9.  [free] called a second time on the payload pointer of a block
    returns the state the first call returned. *)
Theorem free_idempotent s pre b post :
  partitioned hsz s (pre ++ b :: post) ->
  exists s1,
    free hsz (mem_start_ s + total_size pre + hsz) s = Ret s1 /\
    free hsz (mem_start_ s + total_size pre + hsz) s1 = Ret s1.
Proof.
  intros Hpart. pose proof (partitioned_lookup _ _ _ _ Hpart) as Hb.
  eexists. unfold free.
  replace (mem_start_ s + total_size pre + hsz - hsz)
    with (mem_start_ s + total_size pre) by lia.
  rewrite Hb. split; [reflexivity|]. simpl. unfold store_free at 1.
  rewrite lookup_alter_eq, Hb. simpl. unfold set_mem. simpl.
  rewrite store_free_twice. reflexivity.
Qed.

(** ** Termination of the scan *)

(** C10.  Where the control blocks met from [mem_start_], hopping by each
    recorded size, have positive sizes and the hops end exactly on
    [last_addr_] (this is [chain]), the loop of [alloc] is over after at
    most one iteration per block, whatever total size it looks for; and
    when no block qualifies it is the walk from block to block that ends,
    on [last_addr_]. *)
Theorem scan_terminates s bs size fuel :
  chain (mem s) (mem_start_ s) bs (last_addr_ s) ->
  Forall (fun b => 0 < mcb_size b) bs ->
  (length bs <= fuel)%nat ->
  (exists r, scan fuel (mem s) (last_addr_ s) (mem_start_ s) size = Ret r) /\
  (Forall (fun b => fits size b = false) bs ->
   scan fuel (mem s) (last_addr_ s) (mem_start_ s) size = Ret None).
Proof.
  intros Hc Hpos Hfuel.
  rewrite (scan_first_fit _ _ _ _ size _ Hpos Hc Hfuel). split.
  - eauto.
  - intros Hnone. f_equal. apply first_fit_None, Hnone.
Qed.

(** ** Runs of [alloc] *)






End Properties.

(** ** Further properties of [alloc] and [free] *)

Lemma scan_Some_lookup fuel m last curr size a :
  scan fuel m last curr size = Ret (Some a) ->
  exists mcb, m !! a = Some mcb /\ fits size mcb = true.
Proof.
  revert curr. induction fuel as [|fuel IH]; simpl; intros curr.
  - destruct (curr =? last); discriminate.
  - destruct (curr =? last); [discriminate|].
    destruct (m !! curr) as [mcb|] eqn:Hm; [|discriminate]. unfold fits.
    destruct (mcb_free mcb && (size <=? mcb_size mcb)) eqn:Hfit.
    + intros [= <-]. eauto.
    + apply IH.
Qed.

Lemma block_addrs_lower a bs y :
  Forall (fun b => 0 < mcb_size b) bs -> In y (block_addrs a bs) -> a <= y.
Proof.
  intros Hpos. revert a. induction Hpos as [|b bs Hb Hbs IH]; simpl; intros a.
  - tauto.
  - intros [<-|Hin]; [lia|]. apply IH in Hin. lia.
Qed.

(** Of two blocks of a chain, the one at the lower address ends before the
    other begins. *)
Lemma block_addrs_apart m a bs e x y :
  Forall (fun b => 0 < mcb_size b) bs ->
  chain m a bs e ->
  In x (block_addrs a bs) -> In y (block_addrs a bs) -> x < y ->
  exists bx, m !! x = Some bx /\ x + mcb_size bx <= y.
Proof.
  intros Hpos. revert a. induction Hpos as [|b bs Hb Hbs IH]; simpl; intros a.
  - tauto.
  - intros [Ha Hc] [<-|Hx] [<-|Hy] Hlt.
    + lia.
    + exists b. split; [exact Ha|]. apply block_addrs_lower in Hy; [lia|exact Hbs].
    + apply block_addrs_lower in Hx; [lia|exact Hbs].
    + eapply IH; eauto.
Qed.

Section MoreProperties.

Variable hsz : Z.
Hypothesis hsz_range : 0 < hsz < UINT32_MOD - 1.

Lemma request_size_bounds nd n : 0 <= request_size hsz nd n < UINT32_MOD.
Proof. unfold request_size. apply Z.mod_pos_bound. unfold UINT32_MOD. lia. Qed.

(** Flagging a free block in use and free again gives the memory back. *)
Lemma store_free_undo a m mcb :
  m !! a = Some mcb -> mcb_free mcb = true ->
  store_free a true (store_free a false m) = m.
Proof.
  intros Hm Hfree. apply map_eq. intros x. unfold store_free.
  destruct (decide (a = x)) as [<-|Hne].
  - rewrite !lookup_alter_eq, Hm. destruct mcb as [f sz]. simpl in *.
    subst f. reflexivity.
  - rewrite !lookup_alter_ne by exact Hne. reflexivity.
Qed.

(** X1.  What the first call on a new allocator does, in either build,
    when the total size it computes is at least a header and [sbrk] has
    room for it below the limit: the loop has nothing to look at, so the
    block goes at the break the constructor recorded, and the break and
    [last_addr_] both move on by the total size. *)
Theorem alloc_first_allocation nd fuel n brk0 limit :
  hsz <= request_size hsz nd n ->
  brk0 + request_size hsz nd n <= limit ->
  exists s',
    alloc hsz nd fuel n (Allocator brk0 limit) = Ret (brk0 + hsz, s') /\
    mem_start_ s' = brk0 /\
    last_addr_ s' = brk0 + request_size hsz nd n /\
    brk s' = brk0 + request_size hsz nd n /\
    mem s' !! brk0 = Some (MCB false (request_size hsz nd n)).
Proof.
  intros Hroom Hmax.
  assert (Hnew : Allocator brk0 limit = State ∅ brk0 limit brk0 brk0).
  { unfold Allocator, sbrk. simpl.
    destruct (Z.leb_spec (brk0 + 0) limit) as [_|Hgt]; [|lia].
    simpl. unfold set_brk. simpl. f_equal. lia. }
  rewrite Hnew. eexists. split.
  - apply alloc_grow. simpl. destruct fuel; simpl; rewrite Z.eqb_refl; reflexivity.
  - simpl. split; [reflexivity|]. split; [reflexivity|].
    split; [|apply lookup_insert_eq]. unfold sbrk. simpl.
    destruct (Z.leb_spec (brk0 + request_size hsz nd n) limit); simpl; lia.
Qed.

(** X2.  Whatever the arena looks like, when [alloc] returns, the control block
    in front of the returned pointer is flagged in use and is at least as
    long as the total size the call looked for. *)
Theorem alloc_result_block nd fuel n s p s' :
  alloc hsz nd fuel n s = Ret (p, s') ->
  exists b,
    mem s' !! (p - hsz) = Some b /\ mcb_free b = false /\
    request_size hsz nd n <= mcb_size b.
Proof.
  intros [(a & Hscan & -> & ->)|(Hscan & -> & ->)]%alloc_Ret_inv.
  - apply scan_Some_lookup in Hscan as (mcb & Hm & Hfit).
    apply fits_true in Hfit as [_ Hsize].
    replace (a + hsz - hsz) with a by lia.
    exists (MCB false (mcb_size mcb)). simpl. unfold store_free.
    rewrite lookup_alter_eq, Hm. auto.
  - replace (last_addr_ s + hsz - hsz) with (last_addr_ s) by lia.
    exists (MCB false (request_size hsz nd n)). simpl.
    rewrite lookup_insert_eq. split; [reflexivity|]. split; [reflexivity|lia].
Qed.

(** X3.  On a partitioned arena, [alloc] changes the control block of no
    block of the arena but the one in front of the pointer it returns; it
    leaves [mem_start_] and the limit alone, and neither [last_addr_] nor
    the break ever moves down. *)
Theorem alloc_frame nd fuel n s bs p s' :
  partitioned hsz s bs ->
  alloc hsz nd fuel n s = Ret (p, s') ->
  (forall x, In x (block_addrs (mem_start_ s) bs) -> x <> p - hsz ->
             mem s' !! x = mem s !! x) /\
  mem_start_ s' = mem_start_ s /\ brk_max s' = brk_max s /\
  last_addr_ s <= last_addr_ s' /\ brk s <= brk s'.
Proof.
  pose proof (request_size_bounds nd n) as Hreq.
  intros _ [(a & Hscan & -> & ->)|(Hscan & -> & ->)]%alloc_Ret_inv.
  - simpl. split; [|repeat split; lia].
    intros x _ Hx. unfold store_free. apply lookup_alter_ne. lia.
  - simpl. split; [|split; [reflexivity|split; [reflexivity|split; [lia|]]]].
    + intros x _ Hx. apply lookup_insert_ne. lia.
    + unfold sbrk. destruct (_ <=? _); simpl; lia.
Qed.

(** X4.  On a partitioned arena a block that is in use is neither handed out
    nor changed by [alloc]. *)
Theorem alloc_keeps_used_blocks nd fuel n s pre b post p s' :
  partitioned hsz s (pre ++ b :: post) ->
  mcb_free b = false ->
  alloc hsz nd fuel n s = Ret (p, s') ->
  p <> mem_start_ s + total_size pre + hsz /\
  mem s' !! (mem_start_ s + total_size pre) = Some b.
Proof.
  intros Hpart Hused Halloc.
  pose proof (partitioned_lookup _ _ _ _ _ Hpart) as Hb.
  apply alloc_Ret_inv in Halloc as [(a & Hscan & -> & ->)|(Hscan & -> & ->)].
  - apply scan_Some_lookup in Hscan as (mcb & Hm & Hfit).
    apply fits_true in Hfit as [Hfree _].
    assert (Hne : a <> mem_start_ s + total_size pre).
    { intros ->. rewrite Hb in Hm. injection Hm as <-. congruence. }
    split; [lia|]. simpl. unfold store_free.
    rewrite lookup_alter_ne by exact Hne. exact Hb.
  - destruct Hpart as [Hc Hok]. apply chain_end in Hc.
    rewrite total_size_app in Hc. simpl in Hc.
    apply (blocks_ok_pos _ hsz_range) in Hok.
    apply Forall_app in Hok as [_ Hok].
    inversion Hok as [|? ? Hbpos Hpost]; subst.
    pose proof (total_size_pos _ Hpost).
    split; [lia|]. simpl. rewrite lookup_insert_ne by lia. exact Hb.
Qed.

(** X5.  On a partitioned arena a call that returns has done one of two
    things.  Either it reused the first block, in address order, that was
    free and at least as long as the total size looked for, and moved
    neither [last_addr_] nor the break; or no block was both free and long
    enough, and it appended a block at [last_addr_].  So the arena grows
    only when nothing fits. *)
Theorem alloc_reuses_or_appends nd fuel n s bs p s' :
  partitioned hsz s bs ->
  alloc hsz nd fuel n s = Ret (p, s') ->
  (exists pre b post,
      bs = pre ++ b :: post /\
      p = mem_start_ s + total_size pre + hsz /\
      fits (request_size hsz nd n) b = true /\
      Forall (fun b' => fits (request_size hsz nd n) b' = false) pre /\
      last_addr_ s' = last_addr_ s /\ brk s' = brk s /\
      partitioned hsz s' (pre ++ MCB false (mcb_size b) :: post)) \/
  (Forall (fun b => fits (request_size hsz nd n) b = false) bs /\
   p = last_addr_ s + hsz /\
   last_addr_ s' = last_addr_ s + request_size hsz nd n /\
   mem s' !! last_addr_ s = Some (MCB false (request_size hsz nd n))).
Proof.
  intros Hpart Halloc. pose proof Hpart as [Hc Hok].
  pose proof (blocks_ok_pos _ hsz_range _ Hok) as Hpos.
  apply alloc_Ret_inv in Halloc as [(a & Hscan & -> & ->)|(Hscan & -> & ->)];
    apply (scan_Ret_first_fit _ _ _ _ _ _ _ Hpos Hc) in Hscan; symmetry in Hscan.
  - left. apply first_fit_Some in Hscan as (pre & b & post & -> & -> & Hb & Hpre).
    exists pre, b, post. repeat (split; [first [reflexivity|assumption]|]).
    apply partitioned_store_free; assumption.
  - right. apply first_fit_None in Hscan. split; [exact Hscan|].
    split; [reflexivity|]. split; [reflexivity|]. simpl. apply lookup_insert_eq.
Qed.

(** X7.  When [alloc] reuses a block, that is when the pointer it returns is
    not the one of a new block at [last_addr_], freeing that pointer right
    away gives back the very state [alloc] was called in. *)
Theorem alloc_free_round_trip nd fuel n s p s1 :
  alloc hsz nd fuel n s = Ret (p, s1) ->
  p <> last_addr_ s + hsz ->
  free hsz p s1 = Ret s.
Proof.
  intros [(a & Hscan & -> & ->)|(_ & -> & _)]%alloc_Ret_inv Hne; [|congruence].
  apply scan_Some_lookup in Hscan as (mcb & Hm & Hfit).
  apply fits_true in Hfit as [Hfree _].
  unfold free. replace (a + hsz - hsz) with a by lia. simpl.
  unfold store_free at 1. rewrite lookup_alter_eq, Hm. simpl.
  unfold set_mem. simpl. rewrite (store_free_undo _ _ _ Hm Hfree).
  destruct s. reflexivity.
Qed.


(** X9.  The break and the end of the arena.  In a state reached from a new
    allocator whose break is within its limit, the break is never past
    [last_addr_]; and the two are equal as long as [last_addr_] is within
    the limit.  Once a call has run into the limit, [last_addr_] lies
    beyond memory the process owns, for good. *)
Theorem reaches_break_frontier nd s ps :
  reaches hsz nd s ps ->
  brk s <= brk_max s ->
  brk s <= last_addr_ s /\
  (last_addr_ s <= brk_max s -> last_addr_ s = brk s).
Proof.
  induction 1 as [brk0 limit|c s ps s' ps' Hreach IH Hstep]; intros Hmax.
  - unfold Allocator, sbrk in *. simpl in *.
    destruct (Z.leb_spec (brk0 + 0) limit); simpl in *; lia.
  - inversion Hstep as [fuel n s0 ps0 p s1 Hn Halloc|block s0 ps0 s1 Hin Hfree];
      subst.
    + pose proof (request_size_bounds nd n) as Hreq.
      apply alloc_Ret_inv in Halloc as [(a & _ & _ & ->)|(_ & _ & ->)].
      * simpl in *. auto.
      * simpl in *. unfold sbrk in *.
        destruct (Z.leb_spec (brk s + request_size hsz nd n) (brk_max s));
          simpl in *; lia.
    + unfold free in Hfree. destruct (mem s !! (block - hsz)); [|discriminate].
      injection Hfree as <-. simpl in *. auto.
Qed.

(** X10.  In a state reached by calls whose total sizes stay within 32
    bits (with assertions compiled in: by any calls), the blocks behind two
    pointers that [alloc] has returned do not overlap: the block of the
    lower pointer, header and payload, ends at or before the header of the
    other. *)
Theorem reaches_blocks_apart nd s ps p q :
  reaches_in_range hsz nd s ps ->
  In p ps -> In q ps -> p < q ->
  exists b,
    mem s !! (p - hsz) = Some b /\ hsz <= mcb_size b /\
    (p - hsz) + mcb_size b <= q - hsz.
Proof.
  intros Hreach Hp Hq Hlt.
  destruct (reaches_partitioned _ hsz_range _ _ _ Hreach) as (bs & [Hc Hok] & Hret).
  pose proof (blocks_ok_pos _ hsz_range _ Hok) as Hpos.
  destruct (block_addrs_apart _ _ _ _ (p - hsz) (q - hsz) Hpos Hc)
    as (b & Hb & Hend); [apply Hret, Hp|apply Hret, Hq|lia|].
  exists b. split; [exact Hb|]. split; [|exact Hend].
  destruct (In_block_addrs_split _ _ _ (Hret _ Hp)) as (pre & b' & post & -> & Hx).
  apply chain_app in Hc as [_ [Hb' _]]. rewrite <- Hx, Hb in Hb'.
  injection Hb' as <-. apply Forall_app in Hok as [_ Hok].
  inversion Hok as [|? ? Hbok _]; subst. exact (proj1 Hbok).
Qed.

Lemma not_free_fits_false size bs :
  Forall (fun b => mcb_free b = false) bs ->
  Forall (fun b => fits size b = false) bs.
Proof.
  intros Hbs. eapply Forall_impl; [exact Hbs|].
  intros b Hb. apply fits_false. left. exact Hb.
Qed.



(** X13.  The miss path when [sbrk] succeeds, for either build.  On a
    partitioned arena that ends at the break, when no block is both free
    and long enough, the total size is at least a header and [sbrk] has
    room for it below the limit: [sbrk] is asked for exactly the total
    size, so the break and [last_addr_] both move on by it, the new
    control block at the old [last_addr_] records it, and the arena ends
    at the break again.  The total is one byte plus the header with
    assertions compiled in, and the request plus the header with [NDEBUG]
    when that sum is below 2^32. *)
Theorem alloc_append_effect nd fuel n s bs :
  partitioned hsz s bs ->
  Forall (fun b => fits (request_size hsz nd n) b = false) bs ->
  (length bs <= fuel)%nat ->
  hsz <= request_size hsz nd n ->
  last_addr_ s = brk s ->
  brk s + request_size hsz nd n <= brk_max s ->
  exists s',
    alloc hsz nd fuel n s = Ret (last_addr_ s + hsz, s') /\
    last_addr_ s' = last_addr_ s + request_size hsz nd n /\
    brk s' = brk s + request_size hsz nd n /\
    mem s' !! last_addr_ s = Some (MCB false (request_size hsz nd n)) /\
    partitioned hsz s' (bs ++ [MCB false (request_size hsz nd n)]) /\
    (nd = false -> request_size hsz nd n = 1 + hsz) /\
    (nd = true -> 0 <= n -> n + hsz < UINT32_MOD ->
     request_size hsz nd n = n + hsz).
Proof.
  intros Hpart Hbs Hfuel Hroom Hend Hmax.
  pose proof (request_size_bounds nd n) as Hreq. eexists. split.
  - apply (alloc_append _ hsz_range nd s bs n fuel Hpart Hbs Hfuel).
  - simpl. split; [reflexivity|]. split.
    { unfold sbrk.
      destruct (Z.leb_spec (brk s + request_size hsz nd n) (brk_max s));
        simpl; lia. }
    split; [apply lookup_insert_eq|]. split.
    { apply partitioned_grown; [exact hsz_range|exact Hpart|lia]. }
    split.
    + intros ->. apply request_size_debug, hsz_range.
    + intros ->. apply request_size_ndebug, hsz_range.
Qed.

Lemma request_size_wrap n :
  UINT32_MOD - hsz <= n < UINT32_MOD ->
  request_size hsz true n = n + hsz - UINT32_MOD.
Proof.
  intros Hn. unfold request_size. symmetry.
  apply (Z.mod_unique _ _ 1); [left|]; unfold UINT32_MOD in *; lia.
Qed.

(** On an arena without a free block a call that returns has appended. *)
Lemma alloc_Ret_no_free nd fuel n s bs p s' :
  partitioned hsz s bs ->
  Forall (fun b => mcb_free b = false) bs ->
  alloc hsz nd fuel n s = Ret (p, s') ->
  p = last_addr_ s + hsz /\ s' = grown (request_size hsz nd n) s.
Proof.
  intros [Hc Hok] Hbs Halloc.
  pose proof (blocks_ok_pos _ hsz_range _ Hok) as Hpos.
  apply alloc_Ret_inv in Halloc as [(a & Hscan & _ & _)|(_ & -> & ->)];
    [|split; reflexivity].
  apply (scan_Ret_first_fit _ _ _ _ _ _ _ Hpos Hc) in Hscan. symmetry in Hscan.
  pose proof (proj2 (first_fit_None (mem_start_ s) bs (request_size hsz nd n))
                (not_free_fits_false _ _ Hbs)) as Hnone.
  congruence.
Qed.

(** X17.  With [NDEBUG], a request of 2^32 - sizeof(mcb_st) bytes or more
    makes the 32-bit total wrap around.  On a partitioned arena without a
    free block, when such a call returns, the new block's recorded size is
    the request plus the header minus 2^32, which is less than a header,
    and [last_addr_] has moved by that little. *)
Theorem alloc_ndebug_total_wraps fuel n s bs p s' :
  partitioned hsz s bs ->
  Forall (fun b => mcb_free b = false) bs ->
  UINT32_MOD - hsz <= n < UINT32_MOD ->
  alloc hsz true fuel n s = Ret (p, s') ->
  p = last_addr_ s + hsz /\
  mem s' !! last_addr_ s = Some (MCB false (n + hsz - UINT32_MOD)) /\
  last_addr_ s' = last_addr_ s + (n + hsz - UINT32_MOD) /\
  n + hsz - UINT32_MOD < hsz.
Proof.
  intros Hpart Hbs Hn Halloc. pose proof (request_size_wrap n Hn) as Hreq.
  destruct (alloc_Ret_no_free _ _ _ _ _ _ _ Hpart Hbs Halloc) as [-> ->].
  rewrite Hreq. simpl. split; [reflexivity|].
  split; [apply lookup_insert_eq|]. split; [reflexivity|lia].
Qed.

(** X18.  With [NDEBUG], a request of exactly 2^32 - sizeof(mcb_st) bytes
    has total size 0.  On a partitioned arena without a free block, when
    such a call returns it returns [last_addr_ + sizeof(mcb_st)] and
    leaves [last_addr_] where it was, so the next call, when it returns,
    returns the same pointer while the first is still in use. *)
Theorem alloc_ndebug_zero_total_aliases fuel fuel' n s bs p1 s1 p2 s2 :
  partitioned hsz s bs ->
  Forall (fun b => mcb_free b = false) bs ->
  alloc hsz true fuel (UINT32_MOD - hsz) s = Ret (p1, s1) ->
  alloc hsz true fuel' n s1 = Ret (p2, s2) ->
  p1 = last_addr_ s + hsz /\ last_addr_ s1 = last_addr_ s /\ p2 = p1.
Proof.
  intros Hpart Hbs Halloc1 Halloc2.
  assert (Hreq : request_size hsz true (UINT32_MOD - hsz) = 0)
    by (rewrite request_size_wrap; lia).
  destruct (alloc_Ret_no_free _ _ _ _ _ _ _ Hpart Hbs Halloc1) as [-> ->].
  rewrite Hreq in *.
  assert (Hpart1 : partitioned hsz (grown 0 s) bs).
  { destruct Hpart as [Hc Hok]. split; [|exact Hok]. simpl.
    replace (last_addr_ s + 0) with (last_addr_ s) by lia.
    apply chain_ext with (m := mem s);
      [exact (blocks_ok_pos _ hsz_range _ Hok)| |exact Hc].
    intros x Hx. apply lookup_insert_ne. lia. }
  destruct (alloc_Ret_no_free _ _ _ _ _ _ _ Hpart1 Hbs Halloc2) as [-> _].
  simpl. repeat split; lia.
Qed.

End MoreProperties.

(** ** Concrete runs

    [sizeof(mcb_st)] is 8; the break is at 4096 when the allocator is
    constructed. *)

(** C2, with assertions compiled in.  On a new allocator [alloc(16)]
    returns 4096 + 8 and writes a control block at 4096, but the block is
    1 + 8 bytes long and [last_addr_] moves by 9, not by 16 + 8. *)
Theorem alloc_debug_grows_by_one_plus_header :
  exists s',
    alloc 8 false 0 16 (Allocator 4096 65536) = Ret (4096 + 8, s') /\
    mem s' !! 4096 = Some (MCB false 9) /\
    last_addr_ s' = 4096 + 9 /\
    last_addr_ s' <> 4096 + (16 + 8).
Proof.
  eexists. split; [vm_compute; reflexivity|].
  split; [vm_compute; reflexivity|]. split; [reflexivity|]. simpl. lia.
Qed.

(** With [NDEBUG] the total size is taken modulo 2^32: a request of
    2^32 - 1 bytes gets a block of 7 bytes, shorter than its header. *)
Example alloc_ndebug_wraps :
  exists s',
    alloc 8 true 0 4294967295 (Allocator 4096 65536) = Ret (4096 + 8, s') /\
    mem s' !! 4096 = Some (MCB false 7) /\
    last_addr_ s' = 4096 + 7.
Proof.
  eexists. split; [vm_compute; reflexivity|].
  split; [vm_compute; reflexivity|reflexivity].
Qed.

(** C3.  The break is at its limit when the allocator is constructed, so
    the first [alloc(16)] finds nothing to reuse and [sbrk] returns its
    failure value.  [alloc] has dropped that value: the address it goes on
    to store the new control block at, [last_addr_], is not below the
    break, and if the call comes back at all it comes back not with a
    failure but with [last_addr_ + sizeof(mcb_st)], [last_addr_] moved
    past a break that has not moved. *)
Theorem alloc_drops_sbrk_failure :
  scan 0 (mem (Allocator 4096 4096)) (last_addr_ (Allocator 4096 4096))
       (mem_start_ (Allocator 4096 4096)) (request_size 8 false 16) = Ret None /\
  sbrk (request_size 8 false 16) (Allocator 4096 4096)
    = (SBRK_FAILED, Allocator 4096 4096) /\
  brk (Allocator 4096 4096) <= last_addr_ (Allocator 4096 4096) /\
  alloc 8 false 0 16 (Allocator 4096 4096) <> Abort /\
  forall p s',
    alloc 8 false 0 16 (Allocator 4096 4096) = Ret (p, s') ->
    p = 4096 + 8 /\ last_addr_ s' = 4096 + 9 /\ brk s' = 4096 /\
    brk s' < last_addr_ s'.
Proof.
  split; [reflexivity|]. split; [reflexivity|].
  split; [vm_compute; discriminate|].
  assert (Halloc : alloc 8 false 0 16 (Allocator 4096 4096)
                   = Ret (4096 + 8, grown 9 (Allocator 4096 4096)))
    by reflexivity.
  split; [rewrite Halloc; discriminate|].
  intros p s' Hret. rewrite Halloc in Hret. injection Hret as <- <-.
  repeat split; reflexivity.
Qed.

(** C5, with [NDEBUG].  A request of 2^32 - 1 bytes on a new allocator has
    total size 7: the one block of the arena is shorter than its own
    header, so the arena, which that call has led to, is not partitioned
    into blocks.  And after [alloc(16)], a request of 2^32 - 8 bytes has
    total size 0: [alloc] returns 4128 for a block at [last_addr_], which
    it does not move, so the block is no part of the arena; the next
    [alloc(16)] returns 4128 again and the size recorded at 4120 goes from
    0 to 24. *)
Theorem alloc_ndebug_wrap_breaks_partition :
  (reaches 8 true (grown 7 (Allocator 4096 65536)) [4096 + 8] /\
   mem (grown 7 (Allocator 4096 65536)) !! 4096 = Some (MCB false 7) /\
   last_addr_ (grown 7 (Allocator 4096 65536)) = 4096 + 7 /\
   ~ exists bs, partitioned 8 (grown 7 (Allocator 4096 65536)) bs) /\
  bind (alloc 8 true 1 16 (Allocator 4096 65536)) (fun '(p1, s1) =>
  bind (alloc 8 true 1 4294967288 s1) (fun '(p2, s2) =>
  bind (alloc 8 true 1 16 s2) (fun '(p3, s3) =>
  Ret (p1, last_addr_ s1, p2, last_addr_ s2, mem s2 !! (p2 - 8),
       p3, last_addr_ s3, mem s3 !! (p3 - 8)))))
  = Ret (4104, 4120, 4128, 4120, Some (MCB false 0),
         4128, 4144, Some (MCB false 24)).
Proof.
  split; [|vm_compute; reflexivity].
  split.
  { apply (reaches_step 8 true (CallAlloc 0 4294967295) (Allocator 4096 65536) []).
    - apply reaches_new.
    - apply step_alloc; [unfold UINT32_MOD; lia|reflexivity]. }
  split; [vm_compute; reflexivity|]. split; [reflexivity|].
  intros (bs & Hc & Hok). destruct bs as [|b bs]; simpl in Hc.
  - vm_compute in Hc. discriminate.
  - destruct Hc as [Hb _]. vm_compute in Hb. injection Hb as <-.
    inversion Hok as [|? ? Hbok _]; subst. unfold block_ok in Hbok. simpl in Hbok. lia.
Qed.

(** C8, with [NDEBUG].  Two requests of 2^32 - 1 bytes on a new allocator
    get blocks of total size 7, at 4096 and at 4103, and the pointers 4104
    and 4111.  The control block of the second pointer, the one
    [free(4111)] stores its flag into, begins inside the eight bytes of
    the control block at 4096. *)
Theorem free_lands_in_other_header :
  bind (alloc 8 true 1 4294967295 (Allocator 4096 65536)) (fun '(p1, s1) =>
  bind (alloc 8 true 1 4294967295 s1) (fun '(p2, s2) =>
  Ret (p1, p2, mem s2 !! (p1 - 8), mem s2 !! (p2 - 8), last_addr_ s2)))
  = Ret (4104, 4111, Some (MCB false 7), Some (MCB false 7), 4110) /\
  4096 < 4111 - 8 < 4096 + 8.
Proof. split; [vm_compute; reflexivity|lia]. Qed.


(** C6, with assertions compiled in.  Two requests of 100 bytes on a new
    allocator get the pointers 4104 and 4113: every block is 9 bytes long,
    so the two payload spans of 100 bytes overlap. *)
Theorem allocs_debug_spans_overlap :
  exists s',
    allocs 8 false 1 [100; 100] (Allocator 4096 65536)
      = Ret ([4104; 4113], s') /\
    ~ disjoint_spans 4104 100 4113 100.
Proof.
  eexists. split; [vm_compute; reflexivity|]. unfold disjoint_spans. lia.
Qed.

(** With [NDEBUG] the same happens once the total wraps: the second
    pointer lies 7 bytes after the first. *)
Example allocs_ndebug_wrap_overlap :
  exists s',
    allocs 8 true 1 [4294967295; 4294967295] (Allocator 4096 65536)
      = Ret ([4104; 4111], s') /\
    ~ disjoint_spans 4104 4294967295 4111 4294967295.
Proof.
  eexists. split; [vm_compute; reflexivity|]. unfold disjoint_spans. lia.
Qed.

(** C7, with assertions compiled in.  [alloc(16)] makes a block of total
    size 9 at 4096; it is freed; [alloc(100)], for which 100 + 8 > 9,
    gets the same pointer back. *)
Theorem reuse_debug_ignores_request :
  bind (alloc 8 false 1 16 (Allocator 4096 65536)) (fun '(p1, s1) =>
  bind (free 8 p1 s1) (fun s2 =>
  bind (alloc 8 false 1 100 s2) (fun '(p2, s3) =>
  Ret (p1, mem s2 !! (p1 - 8), p2, last_addr_ s3))))
  = Ret (4104, Some (MCB true 9), 4104, 4105).
Proof. vm_compute. reflexivity. Qed.

(** With [NDEBUG], a request whose total wraps to 7 gets the freed block
    of 24 bytes back although 2^32 - 1 + 8 > 24. *)
Example reuse_ndebug_wrap :
  bind (alloc 8 true 1 16 (Allocator 4096 65536)) (fun '(p1, s1) =>
  bind (free 8 p1 s1) (fun s2 =>
  bind (alloc 8 true 1 4294967295 s2) (fun '(p2, s3) =>
  Ret (p1, mem s2 !! (p1 - 8), p2, last_addr_ s3))))
  = Ret (4104, Some (MCB true 24), 4104, 4120).
Proof. vm_compute. reflexivity. Qed.

(** The end-to-end scenario of the specification, with [NDEBUG]. *)
Example scenario_ndebug :
  bind (alloc 8 true 4 16 (Allocator 4096 65536)) (fun '(p1, s1) =>
  bind (alloc 8 true 4 32 s1) (fun '(p2, s2) =>
  bind (free 8 p1 s2) (fun s3 =>
  bind (alloc 8 true 4 10 s3) (fun '(p3, s4) =>
  bind (alloc 8 true 4 100 s4) (fun '(p4, s5) =>
  Ret ([p1; p2; p3; p4], [last_addr_ s1; last_addr_ s2; last_addr_ s4; last_addr_ s5]))))))
  = Ret ([4096 + 8; 4096 + 16 + 2 * 8; 4096 + 8; 4096 + 16 + 32 + 3 * 8],
         [4096 + 16 + 8; 4096 + 16 + 32 + 2 * 8; 4096 + 16 + 32 + 2 * 8;
          4096 + 16 + 32 + 100 + 3 * 8]).
Proof. vm_compute. reflexivity. Qed.

(** The same calls with assertions compiled in: every block is 9 bytes. *)
Example scenario_debug :
  bind (alloc 8 false 4 16 (Allocator 4096 65536)) (fun '(p1, s1) =>
  bind (alloc 8 false 4 32 s1) (fun '(p2, s2) =>
  bind (free 8 p1 s2) (fun s3 =>
  bind (alloc 8 false 4 10 s3) (fun '(p3, s4) =>
  bind (alloc 8 false 4 100 s4) (fun '(p4, s5) =>
  Ret ([p1; p2; p3; p4], [last_addr_ s1; last_addr_ s2; last_addr_ s4; last_addr_ s5]))))))
  = Ret ([4104; 4113; 4104; 4122], [4105; 4114; 4114; 4123]).
Proof. vm_compute. reflexivity. Qed.

(** ** The general statements at concrete arenas *)


Lemma partition_invariant_witness :
  reaches_in_range 8 false (grown 9 (Allocator 4096 65536)) [4096 + 8] /\
  exists bs,
    partitioned 8 (grown 9 (Allocator 4096 65536)) bs /\
    last_addr_ (grown 9 (Allocator 4096 65536))
      = mem_start_ (grown 9 (Allocator 4096 65536)) + total_size bs.
Proof.
  assert (Hrange : 0 < 8 < UINT32_MOD - 1) by (unfold UINT32_MOD; lia).
  assert (Hreach : reaches_in_range 8 false (grown 9 (Allocator 4096 65536))
                     [4096 + 8]).
  { apply (in_range_step 8 false (CallAlloc 0 16) (Allocator 4096 65536) []).
    - apply in_range_new.
    - simpl. discriminate.
    - apply step_alloc; [unfold UINT32_MOD; lia|reflexivity]. }
  split; [exact Hreach|].
  destruct (partition_invariant 8 Hrange false _ _ Hreach) as (bs & Hpart & Hsum & _).
  exists bs. split; [exact Hpart|exact Hsum].
Defined.


Lemma free_frame_witness :
  partitioned 8
    (State (<[4105 := MCB false 9]> {[4096 := MCB false 9]}) 4114 65536 4096 4114)
    ([MCB false 9] ++ MCB false 9 :: []) /\
  exists s',
    free 8 (4105 + 8)
      (State (<[4105 := MCB false 9]> {[4096 := MCB false 9]}) 4114 65536 4096 4114)
      = Ret s' /\
    mem s' !! 4105 = Some (MCB true 9) /\
    mem s' !! 4096 = Some (MCB false 9) /\
    last_addr_ s' = 4114.
Proof.
  assert (Hrange : 0 < 8 < UINT32_MOD - 1) by (unfold UINT32_MOD; lia).
  assert (Hpart : partitioned 8
    (State (<[4105 := MCB false 9]> {[4096 := MCB false 9]}) 4114 65536 4096 4114)
    ([MCB false 9] ++ MCB false 9 :: [])).
  { split.
    - simpl. repeat split; vm_compute; reflexivity.
    - repeat constructor; unfold UINT32_MOD; simpl; lia. }
  split; [exact Hpart|].
  destruct (free_frame 8 Hrange _ _ _ _ Hpart)
    as (s' & Hfree & Hmcb & Hother & _ & Hlast & _).
  exists s'. split; [exact Hfree|]. split; [exact Hmcb|].
  split; [|exact Hlast].
  rewrite (Hother 4096); [vm_compute; reflexivity|simpl; lia].
Defined.

Lemma free_idempotent_witness :
  partitioned 8
    (State (<[4105 := MCB false 9]> {[4096 := MCB false 9]}) 4114 65536 4096 4114)
    ([MCB false 9] ++ MCB false 9 :: []) /\
  exists s1,
    free 8 (4105 + 8)
      (State (<[4105 := MCB false 9]> {[4096 := MCB false 9]}) 4114 65536 4096 4114)
      = Ret s1 /\
    free 8 (4105 + 8) s1 = Ret s1.
Proof.
  assert (Hpart : partitioned 8
    (State (<[4105 := MCB false 9]> {[4096 := MCB false 9]}) 4114 65536 4096 4114)
    ([MCB false 9] ++ MCB false 9 :: [])).
  { split.
    - simpl. repeat split; vm_compute; reflexivity.
    - repeat constructor; unfold UINT32_MOD; simpl; lia. }
  split; [exact Hpart|].
  destruct (free_idempotent 8 _ _ _ _ Hpart) as (s1 & Hfirst & Hsecond).
  exists s1. split; [exact Hfirst|exact Hsecond].
Defined.

Lemma scan_terminates_witness :
  chain (<[4105 := MCB true 9]> {[4096 := MCB false 9]}) 4096
        [MCB false 9; MCB true 9] 4114 /\
  (exists r,
     scan 2 (<[4105 := MCB true 9]> {[4096 := MCB false 9]}) 4114 4096 9 = Ret r) /\
  scan 2 (<[4105 := MCB true 9]> {[4096 := MCB false 9]}) 4114 4096 10 = Ret None.
Proof.
  assert (Hc : chain (<[4105 := MCB true 9]> {[4096 := MCB false 9]}) 4096
                     [MCB false 9; MCB true 9] 4114).
  { simpl. repeat split; vm_compute; reflexivity. }
  assert (Hpos : Forall (fun b => 0 < mcb_size b) [MCB false 9; MCB true 9]).
  { repeat constructor; simpl; lia. }
  split; [exact Hc|]. split.
  - apply (scan_terminates
             (State (<[4105 := MCB true 9]> {[4096 := MCB false 9]})
                    4114 65536 4096 4114)
             [MCB false 9; MCB true 9] 9 2 Hc Hpos).
    simpl. lia.
  - apply (scan_terminates
             (State (<[4105 := MCB true 9]> {[4096 := MCB false 9]})
                    4114 65536 4096 4114)
             [MCB false 9; MCB true 9] 10 2 Hc Hpos).
    + simpl. lia.
    + repeat constructor.
Defined.

(** ** The further properties at concrete arenas *)

Ltac hsz8 := unfold UINT32_MOD; lia.

Ltac concrete_partition :=
  split;
  [simpl; repeat split; vm_compute; reflexivity
  |repeat constructor; unfold UINT32_MOD; simpl; lia].

Lemma alloc_first_allocation_witness :
  8 <= request_size 8 true 16 /\
  4096 + request_size 8 true 16 <= 65536 /\
  exists s',
    alloc 8 true 0 16 (Allocator 4096 65536) = Ret (4096 + 8, s') /\
    last_addr_ s' = 4096 + request_size 8 true 16 /\
    brk s' = 4096 + request_size 8 true 16.
Proof.
  assert (Hrange : 0 < 8 < UINT32_MOD - 1) by hsz8.
  assert (Hroom : 8 <= request_size 8 true 16) by (vm_compute; discriminate).
  assert (Hmax : 4096 + request_size 8 true 16 <= 65536)
    by (vm_compute; discriminate).
  split; [exact Hroom|]. split; [exact Hmax|].
  destruct (alloc_first_allocation 8 Hrange true 0 16 4096 65536 Hroom Hmax)
    as (s' & Halloc & _ & Hlast & Hbrk & _).
  exists s'. split; [exact Halloc|]. split; [exact Hlast|exact Hbrk].
Defined.

Lemma alloc_result_block_witness :
  alloc 8 false 0 16 (Allocator 4096 65536)
    = Ret (4096 + 8, grown 9 (Allocator 4096 65536)) /\
  exists b,
    mem (grown 9 (Allocator 4096 65536)) !! (4096 + 8 - 8) = Some b /\
    mcb_free b = false /\ request_size 8 false 16 <= mcb_size b.
Proof.
  assert (Halloc : alloc 8 false 0 16 (Allocator 4096 65536)
                   = Ret (4096 + 8, grown 9 (Allocator 4096 65536)))
    by reflexivity.
  split; [exact Halloc|].
  exact (alloc_result_block 8 false 0 16 _ _ _ Halloc).
Defined.

Lemma alloc_frame_witness :
  partitioned 8 (Allocator 4096 65536) [] /\
  alloc 8 false 0 16 (Allocator 4096 65536)
    = Ret (4096 + 8, grown 9 (Allocator 4096 65536)) /\
  last_addr_ (Allocator 4096 65536) <= last_addr_ (grown 9 (Allocator 4096 65536)) /\
  brk (Allocator 4096 65536) <= brk (grown 9 (Allocator 4096 65536)).
Proof.
  assert (Hpart : partitioned 8 (Allocator 4096 65536) [])
    by (split; [reflexivity|constructor]).
  assert (Halloc : alloc 8 false 0 16 (Allocator 4096 65536)
                   = Ret (4096 + 8, grown 9 (Allocator 4096 65536)))
    by reflexivity.
  split; [exact Hpart|]. split; [exact Halloc|].
  destruct (alloc_frame 8 false 0 16 _ _ _ _ Hpart Halloc)
    as (_ & _ & _ & Hlast & Hbrk).
  split; [exact Hlast|exact Hbrk].
Defined.

Lemma alloc_keeps_used_blocks_witness :
  partitioned 8
    (State (<[4105 := MCB true 9]> {[4096 := MCB false 9]}) 4114 65536 4096 4114)
    ([] ++ MCB false 9 :: [MCB true 9]) /\
  exists s',
    alloc 8 false 2 5
      (State (<[4105 := MCB true 9]> {[4096 := MCB false 9]}) 4114 65536 4096 4114)
      = Ret (4105 + 8, s') /\
    4105 + 8 <> 4096 + 8 /\ mem s' !! 4096 = Some (MCB false 9).
Proof.
  assert (Hrange : 0 < 8 < UINT32_MOD - 1) by hsz8.
  assert (Hpart : partitioned 8
    (State (<[4105 := MCB true 9]> {[4096 := MCB false 9]}) 4114 65536 4096 4114)
    ([] ++ MCB false 9 :: [MCB true 9])) by concrete_partition.
  split; [exact Hpart|]. eexists. split; [vm_compute; reflexivity|].
  refine (alloc_keeps_used_blocks 8 Hrange false 2 5 _ [] (MCB false 9)
            [MCB true 9] (4105 + 8) _ Hpart eq_refl _).
  vm_compute. reflexivity.
Defined.

Lemma alloc_reuses_or_appends_witness :
  partitioned 8
    (State (<[4105 := MCB true 9]> {[4096 := MCB false 9]}) 4114 65536 4096 4114)
    [MCB false 9; MCB true 9] /\
  exists s',
    alloc 8 false 2 5
      (State (<[4105 := MCB true 9]> {[4096 := MCB false 9]}) 4114 65536 4096 4114)
      = Ret (4105 + 8, s') /\
    (last_addr_ s' = 4114 \/ last_addr_ s' = 4114 + request_size 8 false 5).
Proof.
  assert (Hrange : 0 < 8 < UINT32_MOD - 1) by hsz8.
  assert (Hpart : partitioned 8
    (State (<[4105 := MCB true 9]> {[4096 := MCB false 9]}) 4114 65536 4096 4114)
    [MCB false 9; MCB true 9]) by concrete_partition.
  split; [exact Hpart|]. eexists. split; [vm_compute; reflexivity|].
  destruct (alloc_reuses_or_appends 8 Hrange false 2 5 _ _ (4105 + 8) _ Hpart eq_refl)
    as [(pre & b & post & _ & _ & _ & _ & Hlast & _)|(_ & _ & Hlast & _)].
  - left. exact Hlast.
  - right. exact Hlast.
Defined.

Lemma alloc_returns_witness :
  partitioned 8
    (State (<[4105 := MCB true 9]> {[4096 := MCB false 9]}) 4114 65536 4096 4114)
    [MCB false 9; MCB true 9] /\
  8 <= request_size 8 true 100 /\
  exists p s',
    alloc 8 true 2 100
      (State (<[4105 := MCB true 9]> {[4096 := MCB false 9]}) 4114 65536 4096 4114)
      = Ret (p, s') /\
    last_addr_ s' = brk s'.
Proof.
  assert (Hrange : 0 < 8 < UINT32_MOD - 1) by hsz8.
  assert (Hpart : partitioned 8
    (State (<[4105 := MCB true 9]> {[4096 := MCB false 9]}) 4114 65536 4096 4114)
    [MCB false 9; MCB true 9]) by concrete_partition.
  assert (Hroom : 8 <= request_size 8 true 100) by (vm_compute; discriminate).
  split; [exact Hpart|]. split; [exact Hroom|].
  apply (alloc_returns 8 Hrange true _ _ 100 2 Hpart).
  - simpl. lia.
  - exact Hroom.
  - reflexivity.
  - vm_compute. discriminate.
Defined.

Lemma alloc_free_round_trip_witness :
  exists s1,
    alloc 8 false 2 5
      (State (<[4105 := MCB true 9]> {[4096 := MCB false 9]}) 4114 65536 4096 4114)
      = Ret (4105 + 8, s1) /\
    4105 + 8 <> 4114 + 8 /\
    free 8 (4105 + 8) s1
      = Ret (State (<[4105 := MCB true 9]> {[4096 := MCB false 9]})
                   4114 65536 4096 4114).
Proof.
  eexists. split; [vm_compute; reflexivity|]. split; [lia|].
  apply (alloc_free_round_trip 8 false 2 5
           (State (<[4105 := MCB true 9]> {[4096 := MCB false 9]})
                  4114 65536 4096 4114)).
  - vm_compute. reflexivity.
  - simpl. lia.
Defined.


Lemma reaches_break_frontier_witness :
  reaches 8 false (grown 9 (Allocator 4096 65536)) [4096 + 8] /\
  brk (grown 9 (Allocator 4096 65536)) <= last_addr_ (grown 9 (Allocator 4096 65536)) /\
  (last_addr_ (grown 9 (Allocator 4096 65536))
     <= brk_max (grown 9 (Allocator 4096 65536)) ->
   last_addr_ (grown 9 (Allocator 4096 65536)) = brk (grown 9 (Allocator 4096 65536))).
Proof.
  assert (Hreach : reaches 8 false (grown 9 (Allocator 4096 65536)) [4096 + 8]).
  { apply (reaches_step 8 false (CallAlloc 0 16) (Allocator 4096 65536) []).
    - apply reaches_new.
    - apply step_alloc; [unfold UINT32_MOD; lia|reflexivity]. }
  split; [exact Hreach|].
  apply (reaches_break_frontier 8 false _ _ Hreach). vm_compute. discriminate.
Defined.

Lemma reaches_blocks_apart_witness :
  reaches_in_range 8 false (grown 9 (grown 9 (Allocator 4096 65536)))
    [4105 + 8; 4096 + 8] /\
  exists b,
    mem (grown 9 (grown 9 (Allocator 4096 65536))) !! (4104 - 8) = Some b /\
    8 <= mcb_size b /\ (4104 - 8) + mcb_size b <= 4113 - 8.
Proof.
  assert (Hrange : 0 < 8 < UINT32_MOD - 1) by hsz8.
  assert (Hreach : reaches_in_range 8 false
                     (grown 9 (grown 9 (Allocator 4096 65536)))
                     [4105 + 8; 4096 + 8]).
  { apply (in_range_step 8 false (CallAlloc 1 100)
             (grown 9 (Allocator 4096 65536)) [4096 + 8]).
    - apply (in_range_step 8 false (CallAlloc 0 16) (Allocator 4096 65536) []).
      + apply in_range_new.
      + simpl. discriminate.
      + apply step_alloc; [unfold UINT32_MOD; lia|reflexivity].
    - simpl. discriminate.
    - apply step_alloc; [unfold UINT32_MOD; lia|].
      vm_compute. reflexivity. }
  split; [exact Hreach|].
  apply (reaches_blocks_apart 8 Hrange false _ _ 4104 4113 Hreach).
  - right. left. reflexivity.
  - left. reflexivity.
  - lia.
Defined.

Lemma reaches_debug_sizes_witness :
  reaches 8 false (grown 9 (Allocator 4096 65536)) [4096 + 8] /\
  exists bs,
    partitioned 8 (grown 9 (Allocator 4096 65536)) bs /\
    Forall (fun b => mcb_size b = 1 + 8) bs.
Proof.
  assert (Hrange : 0 < 8 < UINT32_MOD - 1) by hsz8.
  assert (Hreach : reaches 8 false (grown 9 (Allocator 4096 65536)) [4096 + 8]).
  { apply (reaches_step 8 false (CallAlloc 0 16) (Allocator 4096 65536) []).
    - apply reaches_new.
    - apply step_alloc; [unfold UINT32_MOD; lia|reflexivity]. }
  split; [exact Hreach|].
  exact (reaches_debug_sizes 8 Hrange _ _ Hreach).
Defined.


Lemma alloc_append_effect_witness :
  partitioned 8
    (State (<[4105 := MCB false 9]> {[4096 := MCB false 9]}) 4114 65536 4096 4114)
    [MCB false 9; MCB false 9] /\
  8 <= request_size 8 true 16 /\
  exists s',
    alloc 8 true 2 16
      (State (<[4105 := MCB false 9]> {[4096 := MCB false 9]}) 4114 65536 4096 4114)
      = Ret (4114 + 8, s') /\
    last_addr_ s' = 4114 + request_size 8 true 16 /\
    brk s' = 4114 + request_size 8 true 16 /\
    (0 <= 16 -> 16 + 8 < UINT32_MOD -> request_size 8 true 16 = 16 + 8).
Proof.
  assert (Hrange : 0 < 8 < UINT32_MOD - 1) by hsz8.
  assert (Hpart : partitioned 8
    (State (<[4105 := MCB false 9]> {[4096 := MCB false 9]}) 4114 65536 4096 4114)
    [MCB false 9; MCB false 9]) by concrete_partition.
  assert (Hroom : 8 <= request_size 8 true 16) by (vm_compute; discriminate).
  split; [exact Hpart|]. split; [exact Hroom|].
  destruct (alloc_append_effect 8 Hrange true 2 16 _ _ Hpart)
    as (s' & Halloc & Hlast & Hbrk & _ & _ & _ & Hreq).
  - repeat constructor.
  - simpl. lia.
  - exact Hroom.
  - reflexivity.
  - vm_compute. discriminate.
  - exists s'. split; [exact Halloc|]. split; [exact Hlast|].
    split; [exact Hbrk|exact (Hreq eq_refl)].
Defined.

Lemma alloc_first_fit_ndebug_witness :
  partitioned 8
    (State (<[4116 := MCB true 40]> {[4096 := MCB true 20]}) 4156 65536 4096 4156)
    ([MCB true 20] ++ MCB true 40 :: []) /\
  exists s',
    alloc 8 true 2 16
      (State (<[4116 := MCB true 40]> {[4096 := MCB true 20]}) 4156 65536 4096 4156)
      = Ret (4116 + 8, s') /\
    mem s' !! 4116 = Some (MCB false 40).
Proof.
  assert (Hrange : 0 < 8 < UINT32_MOD - 1) by hsz8.
  assert (Hpart : partitioned 8
    (State (<[4116 := MCB true 40]> {[4096 := MCB true 20]}) 4156 65536 4096 4156)
    ([MCB true 20] ++ MCB true 40 :: [])) by concrete_partition.
  split; [exact Hpart|].
  destruct (alloc_first_fit_ndebug 8 Hrange _ [MCB true 20] (MCB true 40) [] 16 2 Hpart)
    as (s' & Halloc & Hmcb & _).
  - lia.
  - reflexivity.
  - simpl. lia.
  - constructor; [right; simpl; lia|constructor].
  - simpl. lia.
  - exists s'. split; [exact Halloc|exact Hmcb].
Defined.

Lemma reuse_after_free_ndebug_witness :
  partitioned 8 (State {[4096 := MCB false 24]} 4120 65536 4096 4120)
    ([] ++ MCB false 24 :: []) /\
  exists s1,
    free 8 (4096 + 8) (State {[4096 := MCB false 24]} 4120 65536 4096 4120)
      = Ret s1 /\
    exists s2, alloc 8 true 1 10 s1 = Ret (4096 + 8, s2).
Proof.
  assert (Hrange : 0 < 8 < UINT32_MOD - 1) by hsz8.
  assert (Hpart : partitioned 8 (State {[4096 := MCB false 24]} 4120 65536 4096 4120)
    ([] ++ MCB false 24 :: [])) by concrete_partition.
  split; [exact Hpart|].
  destruct (reuse_after_free_ndebug 8 Hrange _ [] (MCB false 24) [] 10 1 Hpart)
    as (s1 & Hfree & Hreuse & _).
  - constructor.
  - lia.
  - simpl. lia.
  - exists s1. split; [exact Hfree|]. apply Hreuse. simpl. lia.
Defined.


Lemma alloc_ndebug_total_wraps_witness :
  UINT32_MOD - 8 <= 4294967295 < UINT32_MOD /\
  alloc 8 true 0 4294967295 (Allocator 4096 65536)
    = Ret (4096 + 8, grown 7 (Allocator 4096 65536)) /\
  mem (grown 7 (Allocator 4096 65536)) !! last_addr_ (Allocator 4096 65536)
    = Some (MCB false (4294967295 + 8 - UINT32_MOD)) /\
  last_addr_ (grown 7 (Allocator 4096 65536))
    = last_addr_ (Allocator 4096 65536) + (4294967295 + 8 - UINT32_MOD).
Proof.
  assert (Hrange : 0 < 8 < UINT32_MOD - 1) by hsz8.
  assert (Hn : UINT32_MOD - 8 <= 4294967295 < UINT32_MOD) by hsz8.
  assert (Halloc : alloc 8 true 0 4294967295 (Allocator 4096 65536)
                   = Ret (4096 + 8, grown 7 (Allocator 4096 65536)))
    by reflexivity.
  assert (Hused : Forall (fun b => mcb_free b = false) []) by constructor.
  split; [exact Hn|]. split; [exact Halloc|].
  destruct (alloc_ndebug_total_wraps 8 Hrange 0 4294967295 _ [] _ _
              (partitioned_new 8 4096 65536) Hused Hn Halloc)
    as (_ & Hmcb & Hlast & _).
  split; [exact Hmcb|exact Hlast].
Defined.

Lemma alloc_ndebug_zero_total_aliases_witness :
  partitioned 8 (State {[4096 := MCB false 24]} 4120 65536 4096 4120)
    [MCB false 24] /\
  exists s1 s2,
    alloc 8 true 1 (UINT32_MOD - 8)
      (State {[4096 := MCB false 24]} 4120 65536 4096 4120)
      = Ret (4120 + 8, s1) /\
    alloc 8 true 1 16 s1 = Ret (4120 + 8, s2) /\
    last_addr_ s1 = 4120.
Proof.
  assert (Hrange : 0 < 8 < UINT32_MOD - 1) by hsz8.
  assert (Hpart : partitioned 8
    (State {[4096 := MCB false 24]} 4120 65536 4096 4120) [MCB false 24])
    by concrete_partition.
  split; [exact Hpart|]. eexists _, _.
  assert (Halloc1 : alloc 8 true 1 (UINT32_MOD - 8)
            (State {[4096 := MCB false 24]} 4120 65536 4096 4120)
          = Ret (4120 + 8,
                 grown 0 (State {[4096 := MCB false 24]} 4120 65536 4096 4120)))
    by (vm_compute; reflexivity).
  assert (Halloc2 : alloc 8 true 1 16
            (grown 0 (State {[4096 := MCB false 24]} 4120 65536 4096 4120))
          = Ret (4120 + 8,
                 grown 24
                   (grown 0 (State {[4096 := MCB false 24]} 4120 65536 4096 4120))))
    by (vm_compute; reflexivity).
  assert (Hused : Forall (fun b => mcb_free b = false) [MCB false 24])
    by (repeat constructor).
  split; [exact Halloc1|]. split; [exact Halloc2|].
  destruct (alloc_ndebug_zero_total_aliases 8 Hrange 1 1 16 _ _ _ _ _ _
              Hpart Hused Halloc1 Halloc2)
    as (_ & Hlast & _).
  exact Hlast.
Defined.
